(** * intree: a static, flat, augmented interval tree

    A shallow embedding of [intree.go] (package [intree]) and the
    verification of its build and query procedures.

    Modelling conventions.
    - A Go [float64] that holds a finite value is a rational number: the
      code only copies and compares floats (and halves one integer), so
      finite doubles are embedded in [Q] with their order.  NaN and the
      infinities are outside the model.
    - A Go [int] is a [Z]; slice positions that a [range] loop or [len]
      produces are [nat].
    - A slice is a [list]; an access outside [0, len) panics, which is the
      [None] of the [option] monad.  A sub-slice shares its backing array
      with its parent: a call on [s[:k]] or [s[k:]] returns the new
      contents of the sub-slice, and the caller splices them back.
    - [rand.Int()] is an oracle [rand : nat -> nat]; a counter of the calls
      made so far is threaded through [sort].
    - Recursive functions and the query loop take a recursion budget; the
      entry points supply one that the theorems show to be enough. *)

From Stdlib Require Import QArith Qround Lqa.
From stdpp Require Import base option list numbers sorting.

Local Open Scope nat_scope.

(** ** Floats *)

Abbreviation float64 := Q (only parsing).

(** [a < b], [a <= b] and [a > b] on floats. *)
Definition f64_lt (a b : float64) : bool := negb (Qle_bool b a).
Definition f64_le (a b : float64) : bool := Qle_bool a b.
Definition f64_gt (a b : float64) : bool := f64_lt b a.

(** ** Interfaces *)

(** [type Bounds interface { Limits() (lower, upper float64) }] *)
Class Bounds (B : Type) := Limits : B → float64 * float64.

(** [type ValuedBounds interface { Bounds; Value() interface{} }] *)
Class ValuedBounds (B V : Type) := {
  ValuedBounds_Bounds :: Bounds B;
  Value : B → V
}.

(** ** The tree *)

(** [type INTree struct { indexes []int; limits []float64 }];
    slot [i] owns [limits[3*i]] (lower), [limits[3*i+1]] (upper) and
    [limits[3*i+2]] (the augmentation). *)
Record INTree := mkINTree {
  indexes : list Z;
  limits : list float64
}.

(** ** Slices *)

(** [s[i]] as an r-value. *)
Definition load {A} (s : list A) (i : nat) : option A := s !! i.

(** [s[i] = v]. *)
Definition store {A} (s : list A) (i : nat) (v : A) : option (list A) :=
  if decide (i < length s) then Some (<[i:=v]> s) else None.

(** [s[:k]] and [s[k:]]; the bound checked is the length (Go checks the
    capacity for [s[:k]], which is at least the length). *)
Definition slice_to {A} (s : list A) (k : nat) : option (list A) :=
  if decide (k ≤ length s) then Some (take k s) else None.
Definition slice_from {A} (s : list A) (k : nat) : option (list A) :=
  if decide (k ≤ length s) then Some (drop k s) else None.

(** [s[i]] for an index held in an [int]. *)
Definition loadZ {A} (s : list A) (i : Z) : option A :=
  if decide (0 ≤ i)%Z then s !! Z.to_nat i else None.

(** [for i := range s { body }] over a slice of length [n], threading the
    variables the body assigns. *)
Definition for_range {S} (n : nat) (body : S → nat → option S) (s : S)
  : option S :=
  foldl (λ acc i, acc ≫= λ s, body s i) (Some s) (seq 0 n).

(** [for i, v := range xs { body }]. *)
Definition for_each {S E} (xs : list E) (body : S → nat → E → option S)
    (s : S) : option S :=
  for_range (length xs) (λ s i, v ← xs !! i; body s i v) s.

(** ** Exchanging two slots

    [sort] exchanges slots [a] and [b] three times with the same two
    statements:
    [indexes[a], indexes[b] = indexes[b], indexes[a]] and
    [limits[3*a], limits[3*a+1], limits[3*a+2], limits[3*b], limits[3*b+1],
     limits[3*b+2] = limits[3*b], ..., limits[3*a], ...].
    A tuple assignment evaluates its right-hand side first and then
    assigns from left to right. *)
Definition swapIndexes (ix : list Z) (a b : nat) : option (list Z) :=
  vb ← load ix b;
  va ← load ix a;
  ix ← store ix a vb;
  store ix b va.

Definition swapLimits (lim : list float64) (a b : nat)
  : option (list float64) :=
  b0 ← load lim (3 * b);
  b1 ← load lim (3 * b + 1);
  b2 ← load lim (3 * b + 2);
  a0 ← load lim (3 * a);
  a1 ← load lim (3 * a + 1);
  a2 ← load lim (3 * a + 2);
  lim ← store lim (3 * a) b0;
  lim ← store lim (3 * a + 1) b1;
  lim ← store lim (3 * a + 2) b2;
  lim ← store lim (3 * b) a0;
  lim ← store lim (3 * b + 1) a1;
  store lim (3 * b + 2) a2.

(** ** sort *)

(** The body of [for i := range indexes] in [sort]; [r] is the slot of the
    pivot and the state is [(limits, indexes, l)]. *)
Definition sort_body (r : nat) (st : list float64 * list Z * nat) (i : nat)
  : option (list float64 * list Z * nat) :=
  let '(lim, ix, l) := st in
  x ← load lim (3 * i);
  p ← load lim (3 * r);
  if f64_lt x p then
    ix ← swapIndexes ix l i;
    lim ← swapLimits lim l i;
    Some (lim, ix, S l)
  else Some (lim, ix, l).

(** [sort(limits, indexes)]; [k] counts the calls of [rand.Int()] made so
    far, and the result carries the new count. *)
Fixpoint sort_rec (fuel : nat) (rand : nat → nat) (k : nat)
    (lim : list float64) (ix : list Z)
  : option (nat * list float64 * list Z) :=
  if decide (length ix < 2) then Some (k, lim, ix) else
  match fuel with
  | O => None
  | S fuel =>
    let l := 0 in
    let r := length ix - 1 in
    let p := rand k `mod` length ix in
    ix ← swapIndexes ix p r;
    lim ← swapLimits lim p r;
    '(lim, ix, l) ← for_range (length ix) (sort_body r) (lim, ix, l);
    ix ← swapIndexes ix l r;
    lim ← swapLimits lim l r;
    (* sort(limits[:3*l], indexes[:l]) *)
    limL ← slice_to lim (3 * l);
    ixL ← slice_to ix l;
    '(k, limL, ixL) ← sort_rec fuel rand (S k) limL ixL;
    let lim := limL ++ drop (3 * l) lim in
    let ix := ixL ++ drop l ix in
    (* sort(limits[3*l+3:], indexes[l+1:]) *)
    limR ← slice_from lim (3 * l + 3);
    ixR ← slice_from ix (l + 1);
    '(k, limR, ixR) ← sort_rec fuel rand k limR ixR;
    Some (k, take (3 * l + 3) lim ++ limR, take (l + 1) ix ++ ixR)
  end.

Definition sort (rand : nat → nat) (k : nat) (lim : list float64)
    (ix : list Z) : option (nat * list float64 * list Z) :=
  sort_rec (length ix) rand k lim ix.

(** ** augment *)

(** The body of [for idx := range indexes] in [augment]; the state is
    [max]. *)
Definition augment_body (lim : list float64) (max : float64) (idx : nat)
  : option float64 :=
  u ← load lim (3 * idx + 1);
  Some (if f64_gt u max then u else max).

(** [len(indexes) >> 1]: the slot, within a sub-slice of [n] slots, where
    [augment] stores the maximum of the sub-slice. *)
Definition augment_root (n : nat) : nat := Nat.shiftr n 1.

(** [augment(limits, indexes)]; [indexes] is only measured. *)
Fixpoint augment_rec (fuel : nat) (lim : list float64) (ix : list Z)
  : option (list float64) :=
  if decide (length ix < 1) then Some lim else
  match fuel with
  | O => None
  | S fuel =>
    max ← for_range (length ix) (augment_body lim) 0%Q;
    let r := augment_root (length ix) in
    lim ← store lim (3 * r + 2) max;
    (* augment(limits[:3*r], indexes[:r]) *)
    limL ← slice_to lim (3 * r);
    ixL ← slice_to ix r;
    limL ← augment_rec fuel limL ixL;
    let lim := limL ++ drop (3 * r) lim in
    (* augment(limits[3*r+3:], indexes[r+1:]) *)
    limR ← slice_from lim (3 * r + 3);
    ixR ← slice_from ix (r + 1);
    limR ← augment_rec fuel limR ixR;
    Some (take (3 * r + 3) lim ++ limR)
  end.

Definition augment (lim : list float64) (ix : list Z)
  : option (list float64) :=
  augment_rec (length ix) lim ix.

(** ** Construction *)

(** The body of [for i, v := range bounds] in [buildTree]; the state is
    [(limits, indexes)]. *)
Definition build_body `{Bounds B} (st : list float64 * list Z) (i : nat)
    (v : B) : option (list float64 * list Z) :=
  let '(lim, ix) := st in
  ix ← store ix i (Z.of_nat i);
  let '(l, u) := Limits v in
  lim ← store lim (3 * i) l;
  lim ← store lim (3 * i + 1) u;
  lim ← store lim (3 * i + 2) 0%Q;
  Some (lim, ix).

Definition buildTree `{Bounds B} (rand : nat → nat) (bounds : list B)
  : option INTree :=
  let ix := replicate (length bounds) 0%Z in
  let lim := replicate (3 * length bounds) 0%Q in
  '(lim, ix) ← for_each bounds build_body (lim, ix);
  '(_, lim, ix) ← sort rand 0 lim ix;
  lim ← augment lim ix;
  Some {| indexes := ix; limits := lim |}.

(** [buildTreeV] repeats [buildTree] for [ValuedBounds]. *)
Definition build_bodyV `{ValuedBounds B V} (st : list float64 * list Z)
    (i : nat) (v : B) : option (list float64 * list Z) :=
  let '(lim, ix) := st in
  ix ← store ix i (Z.of_nat i);
  let '(l, u) := Limits v in
  lim ← store lim (3 * i) l;
  lim ← store lim (3 * i + 1) u;
  lim ← store lim (3 * i + 2) 0%Q;
  Some (lim, ix).

Definition buildTreeV `{ValuedBounds B V} (rand : nat → nat)
    (bounds : list B) : option INTree :=
  let ix := replicate (length bounds) 0%Z in
  let lim := replicate (3 * length bounds) 0%Q in
  '(lim, ix) ← for_each bounds build_bodyV (lim, ix);
  '(_, lim, ix) ← sort rand 0 lim ix;
  lim ← augment lim ix;
  Some {| indexes := ix; limits := lim |}.

Definition NewINTree `{Bounds B} (rand : nat → nat) (bounds : list B)
  : option INTree := buildTree rand bounds.

Definition NewINTreeV `{ValuedBounds B V} (rand : nat → nat)
    (bounds : list B) : option INTree := buildTreeV rand bounds.

(** ** Including *)

(** [int(math.Ceil(float64(l+r) / 2.0))]; the conversions are exact for
    every sum of two slice positions below [2^53]. *)
Definition centerIdx (l r : Z) : Z := Qceiling (inject_Z (l + r) / 2).

(** The variables of the query loop.  [idxStock] lists the slice from its
    last element to its first, so that the top of the stack is the head. *)
Record qstate := mkQ {
  idxStock : list Z;
  result : list Z
}.

(** One iteration of [for len(idxStock) > 0]. *)
Definition Including_iter (t : INTree) (val : float64) (st : qstate)
  : option qstate :=
  match idxStock st with
  | rBoundIdx :: lBoundIdx :: stock =>
    if decide (lBoundIdx = rBoundIdx + 1)%Z then
      Some {| idxStock := stock; result := result st |}
    else
      let c := centerIdx lBoundIdx rBoundIdx in
      lowerLimit ← loadZ (limits t) (3 * c + 2);
      let stock :=
        if f64_le val lowerLimit then (c - 1)%Z :: lBoundIdx :: stock
        else stock in
      l ← loadZ (limits t) (3 * c);
      if f64_le l val then
        let stock := rBoundIdx :: (c + 1)%Z :: stock in
        upperLimit ← loadZ (limits t) (3 * c + 1);
        if f64_le val upperLimit then
          x ← loadZ (indexes t) c;
          Some {| idxStock := stock; result := result st ++ [x] |}
        else Some {| idxStock := stock; result := result st |}
      else Some {| idxStock := stock; result := result st |}
  | _ => None
  end.

Fixpoint Including_loop (fuel : nat) (t : INTree) (val : float64)
    (st : qstate) : option (list Z) :=
  match idxStock st with
  | [] => Some (result st)
  | _ =>
    match fuel with
    | O => None
    | S fuel => st ← Including_iter t val st; Including_loop fuel t val st
    end
  end.

(** The state before the loop: [idxStock := []int{0, len(t.indexes) - 1}],
    [result := []int{}]. *)
Definition Including_init (t : INTree) : qstate :=
  {| idxStock := [(Z.of_nat (length (indexes t)) - 1)%Z; 0%Z];
     result := [] |}.

Definition Including (t : INTree) (val : float64) : option (list Z) :=
  Including_loop (2 * length (indexes t) + 1) t val (Including_init t).

(** ** The test suite's inputs *)

Record testBounds := mkTB { Lower : float64; Upper : float64 }.
#[export] Instance testBounds_Bounds : Bounds testBounds :=
  λ tb, (Lower tb, Upper tb).

Record valuedTestBounds := mkVTB {
  vLower : float64; vUpper : float64; value : Z
}.
#[export] Instance valuedTestBounds_ValuedBounds
  : ValuedBounds valuedTestBounds Z :=
  {| ValuedBounds_Bounds := λ wb, (vLower wb, vUpper wb); Value := value |}.

Definition case_example : list testBounds :=
  [ mkTB 4 6; mkTB 5 7; mkTB 4 8; mkTB 1 3; mkTB 7 9; mkTB 3 6; mkTB 2 3;
    mkTB 5.3 7.9; mkTB 3.2 7.5; mkTB 4.4 5.1; mkTB 4.1 4.9; mkTB 1.3 3.1;
    mkTB 7.9 8.9 ]%Q.

(** The pivot oracle of the test runs below, and a query on a freshly
    built tree. *)
Definition test_rand (k : nat) : nat := 3 * k + 1.

Definition matches (bounds : list testBounds) (val : float64)
  : option (list Z) :=
  t ← NewINTree test_rand bounds; Including t val.

(** * Vocabulary of the proofs

    The slot view of the two slices, the invariants of the loops, the
    reference answer of a query and the states of the query loop. *)

(** ** The flat layout

    The proofs read the two slices as one list of slots: slot [i] is the
    original position [indexes[i]] with the three floats at
    [limits[3*i ..]]. *)

Record slot := Slot {
  s_lower : float64;
  s_upper : float64;
  s_max : float64
}.

Abbreviation entry := (Z * slot)%type (only parsing).

Fixpoint flat (ss : list slot) : list float64 :=
  match ss with
  | [] => []
  | s :: ss => s_lower s :: s_upper s :: s_max s :: flat ss
  end.

Definition lims (es : list entry) : list float64 := flat es.*2.
Definition idxs (es : list entry) : list Z := es.*1.

(** Field [k] of a slot, for [k < 3]. *)
Definition field (k : nat) (s : slot) : float64 :=
  match k with 0 => s_lower s | 1 => s_upper s | _ => s_max s end.

Definition set_field (k : nat) (v : float64) (s : slot) : slot :=
  match k with
  | 0 => Slot v (s_upper s) (s_max s)
  | 1 => Slot (s_lower s) v (s_max s)
  | _ => Slot (s_lower s) (s_upper s) v
  end.

(** ** Exchanging two slots *)

Definition exch {A} (l : list A) (a b : nat) : list A :=
  match l !! a, l !! b with
  | Some x, Some y => <[b:=x]> (<[a:=y]> l)
  | _, _ => l
  end.

(** ** sort: the partition loop *)

Definition lower_of (e : entry) : float64 := s_lower e.2.
Definition upper_of (e : entry) : float64 := s_upper e.2.
Definition max_of (e : entry) : float64 := s_max e.2.

Definition le_lower (e1 e2 : entry) : Prop := (lower_of e1 <= lower_of e2)%Q.

(** The state of the partition loop before iteration [i]: slots below [l]
    are less than the pivot, slots from [l] up to [i] are not, and the
    pivot still sits in slot [r]. *)
Definition partition_inv (es : list entry) (r : nat) (pv : entry) (i : nat)
    (st : list float64 * list Z * nat) : Prop :=
  ∃ es' l,
    st = (lims es', idxs es', l) ∧ es' ≡ₚ es ∧ l ≤ i ∧ l ≤ r ∧
    es' !! r = Some pv ∧
    (∀ j e, j < l → es' !! j = Some e → (lower_of e < lower_of pv)%Q) ∧
    (∀ j e, l ≤ j < i → es' !! j = Some e → (lower_of pv <= lower_of e)%Q).

(** ** augment *)

(** The value [augment] leaves in [max] after scanning upper bounds [us]:
    the scan starts from [0.0]. *)
Definition scan_max (us : list float64) : float64 :=
  foldl (λ m u, if f64_gt u m then u else m) 0%Q us.

(** Assignments to one field of a slot. *)
Definition set_fld (k : nat) (v : float64) (e : entry) : entry :=
  (e.1, set_field k v e.2).
Definition set_idx (v : Z) (e : entry) : entry := (v, e.2).

(** What the index remembers of the caller's interval in a slot. *)
Definition bounds_of (e : entry) : Z * float64 * float64 :=
  (e.1, lower_of e, upper_of e).

(** The shape [augment] gives a range of slots: the slot in the middle
    holds the result of the scan over the whole range, and the slots to
    its left and to its right are augmented in the same way. *)
Inductive Augmented : list entry → Prop :=
  | Augmented_nil : Augmented []
  | Augmented_node esL c esR :
      length esL = augment_root (length (esL ++ c :: esR)) →
      max_of c = scan_max (upper_of <$> (esL ++ c :: esR)) →
      Augmented esL → Augmented esR →
      Augmented (esL ++ c :: esR).

(** ** Construction *)

(** The slots before sorting: slot [i] holds position [i], the limits of
    [bounds[i]] and [0]. *)
Definition initial_entries `{Bounds B} (bounds : list B) : list entry :=
  imap (λ i b, (Z.of_nat i, Slot (Limits b).1 (Limits b).2 0%Q)) bounds.

Definition zero_entry : entry := (0%Z, Slot 0%Q 0%Q 0%Q).

(** The slots of a built tree: a rearrangement of the initial slots,
    ascending in their lower limits and augmented. *)
Record built `{Bounds B} (bounds : list B) (es : list entry) : Prop := {
  built_perm : bounds_of <$> es ≡ₚ bounds_of <$> initial_entries bounds;
  built_sorted : StronglySorted le_lower es;
  built_augmented : Augmented es
}.

(** ** Including *)

(** The containment test [lower <= val <= upper] on a slot. *)
Definition matchb (val : float64) (e : entry) : bool :=
  f64_le (lower_of e) val && f64_le val (upper_of e).

Definition matching (val : float64) (es : list entry) : list entry :=
  filter (λ e, matchb val e = true) es.

(** Popping the range [(l, r)] and everything it pushes appends the
    positions of [ms] to the result and takes at most [cost] iterations. *)
Definition traverses (t : INTree) (val : float64) (l r : Z) (cost : nat)
    (ms : list entry) : Prop :=
  ∀ stock res fuel out,
    Including_loop fuel t val (mkQ stock (res ++ idxs ms)) = Some out →
    Including_loop (cost + fuel) t val (mkQ (r :: l :: stock) res) = Some out.

(** ** The reference answer: a linear scan of the caller's collection *)

Definition contains `{Bounds B} (val : float64) (b : B) : bool :=
  f64_le (Limits b).1 val && f64_le val (Limits b).2.

Fixpoint linear_scan `{Bounds B} (val : float64) (i : nat) (bounds : list B)
  : list Z :=
  match bounds with
  | [] => []
  | b :: bounds =>
    if contains val b then Z.of_nat i :: linear_scan val (S i) bounds
    else linear_scan val (S i) bounds
  end.

Definition brute_force `{Bounds B} (bounds : list B) (val : float64)
  : list Z := linear_scan val 0 bounds.

(** The containment test reads only what [bounds_of] keeps. *)
Definition matchb3 (val : float64) (b : Z * float64 * float64) : bool :=
  f64_le b.1.2 val && f64_le val b.2.

(** ** Safety of the query loop *)

(** The pairs on the stack: every range [(l, r)] lies inside [0, n) and is
    empty only in the form [l = r + 1]. *)
Fixpoint stock_ok (n : Z) (stock : list Z) : Prop :=
  match stock with
  | [] => True
  | r :: l :: stock => (0 ≤ l ∧ r ≤ n - 1 ∧ l ≤ r + 1)%Z ∧ stock_ok n stock
  | [_] => False
  end.

(** The states at the head of the query loop. *)
Inductive reachable (t : INTree) (val : float64) : qstate → Prop :=
  | reachable_init : reachable t val (Including_init t)
  | reachable_iter st st' :
      reachable t val st → idxStock st ≠ [] →
      Including_iter t val st = Some st' → reachable t val st'.

Definition well_formed (t : INTree) : Prop :=
  length (limits t) = 3 * length (indexes t).

(** ** The augmentation that combines the maxima of the children

    The specification's variant of [augment]: the value stored for a range
    combines [subtreeMax[left_center]], [upper[center]] and
    [subtreeMax[right_center]], a child that is an empty range giving
    nothing. *)
Definition f64_max (a b : float64) : float64 := if f64_gt b a then b else a.

Fixpoint augment_combined_rec (fuel : nat) (lim : list float64)
    (ix : list Z) : option (list float64) :=
  if decide (length ix < 1) then Some lim else
  match fuel with
  | O => None
  | S fuel =>
    let r := augment_root (length ix) in
    limL ← slice_to lim (3 * r);
    ixL ← slice_to ix r;
    limL ← augment_combined_rec fuel limL ixL;
    let lim := limL ++ drop (3 * r) lim in
    limR ← slice_from lim (3 * r + 3);
    ixR ← slice_from ix (r + 1);
    limR ← augment_combined_rec fuel limR ixR;
    let lim := take (3 * r + 3) lim ++ limR in
    max ← load lim (3 * r + 1);
    max ← (if decide (length ixL < 1) then Some max else
             m ← load lim (3 * augment_root (length ixL) + 2);
             Some (f64_max max m));
    max ← (if decide (length ixR < 1) then Some max else
             m ← load lim (3 * (r + 1 + augment_root (length ixR)) + 2);
             Some (f64_max max m));
    store lim (3 * r + 2) max
  end.

Definition augment_combined (lim : list float64) (ix : list Z)
  : option (list float64) :=
  augment_combined_rec (length ix) lim ix.

(** The slots held in a [limits] slice, three floats at a time. *)
Fixpoint unflat (lim : list float64) : list slot :=
  match lim with
  | a :: b :: c :: lim => Slot a b c :: unflat lim
  | _ => []
  end.

(** Slot [i] of a pair of slices: [indexes[i]] with [limits[3*i ..]]. *)
Definition slots_of (lim : list float64) (ix : list Z) : list entry :=
  zip ix (unflat lim).

(** The two limits of a slot. *)
Definition limits_of (e : entry) : float64 * float64 :=
  (lower_of e, upper_of e).

(** The third float of the middle slot of [es] is at least every upper
    limit to its left, and so on in the two halves: what the left pruning
    of [Including] relies on. *)
Fixpoint coveredb (fuel : nat) (es : list entry) : bool :=
  match es, fuel with
  | [], _ => true
  | _, O => false
  | _, S fuel =>
    let h := augment_root (length es) in
    match es !! h with
    | Some c =>
      forallb (λ e, f64_le (upper_of e) (max_of c)) (take h es)
      && coveredb fuel (take h es) && coveredb fuel (drop (S h) es)
    | None => false
    end
  end.

(** No two of the floats [ls] are equal. *)
Fixpoint distinct_floats (ls : list float64) : bool :=
  match ls with
  | [] => true
  | x :: ls => forallb (λ y, negb (Qeq_bool x y)) ls && distinct_floats ls
  end.

(** [assert.EqualValues(t, lo, lowerLimit)] and
    [assert.EqualValues(t, up, upperLimit)] after
    [lowerLimit, upperLimit := b.Limits()]. *)
Definition assert_limits `{Bounds B} (b : B) (lo up : float64) : bool :=
  let '(lowerLimit, upperLimit) := Limits b in
  Qeq_bool lo lowerLimit && Qeq_bool up upperLimit.

(** The body of [for _, matchedIndex := range matches] in the case
    [Case_Example] of [Test_Tree]: [inputBounds[matchedIndex]] and the
    [switch] on [matchedIndex]. *)
Definition Case_Example_body (inputBounds : list testBounds)
    (matchedIndex : Z) : option bool :=
  b ← loadZ inputBounds matchedIndex;
  Some (match matchedIndex with
        | 0 => assert_limits b 4 6
        | 2 => assert_limits b 4 8
        | 5 => assert_limits b 3 6
        | 9 => assert_limits b 3.2 7.5
        | 10 => assert_limits b 4.1 4.9
        | _ => true
        end)%Z.

(** A test case: [None] is a panic, [Some false] a failed assertion. *)
Definition Test_Tree_Case_Example (rand : nat → nat) : option bool :=
  let inputBounds := case_example in
  tree ← NewINTree rand inputBounds;
  matches ← Including tree 4.3%Q;
  oks ← mapM (Case_Example_body inputBounds) matches;
  Some (bool_decide (length matches = 5) && forallb id oks).

Definition Test_Tree_nil_bounds (rand : nat → nat) : option bool :=
  tree ← NewINTree rand (@nil testBounds);
  matches ← Including tree 4.3%Q;
  Some (bool_decide (length matches = 0)).

(** The cases that build one tree and count the matches of some points. *)
Definition count_case (rand : nat → nat) (inputBounds : list testBounds)
    (expected : list (float64 * nat)) : option bool :=
  tree ← NewINTree rand inputBounds;
  oks ← mapM (λ '(val, n),
               matches ← Including tree val;
               Some (bool_decide (length matches = n))) expected;
  Some (forallb id oks).

Definition Test_Tree_single_interval (rand : nat → nat) : option bool :=
  count_case rand [mkTB 4 6] [(4.3%Q, 1); (7%Q, 0)].

Definition Test_Tree_repeated_interval (rand : nat → nat) : option bool :=
  count_case rand [mkTB 4 6; mkTB 4 6] [(4.3%Q, 2); (7%Q, 0)].

Definition Test_Tree_overlap_at_boundary (rand : nat → nat) : option bool :=
  count_case rand [mkTB 4 6; mkTB 6 9; mkTB 9 11] [(6%Q, 2); (9%Q, 2)].

Definition Test_Tree_fine_grained (rand : nat → nat) : option bool :=
  count_case rand
    [mkTB 3.43567981e-21 3.43567984e-21;
     mkTB 3.43567987e-21 3.43567990e-21]%Q
    [(3.43567985e-21%Q, 0); (3.43567987e-21%Q, 1); (3.43567988e-21%Q, 1)].

(** [Test_Tree_Valued]: the collection holds [valuedTestBounds], the tree
    is built by [NewINTree], and a returned position is checked against
    the value stored at that position, which the inputs set to the
    position plus one. *)
Definition valued_example : list valuedTestBounds :=
  [ mkVTB 4 6 1; mkVTB 5 7 2; mkVTB 4 8 3; mkVTB 1 3 4; mkVTB 7 9 5;
    mkVTB 3 6 6; mkVTB 2 3 7; mkVTB 5.3 7.9 8; mkVTB 3.2 7.5 9;
    mkVTB 4.4 5.1 10; mkVTB 4.1 4.9 11; mkVTB 1.3 3.1 12;
    mkVTB 7.9 8.9 13 ]%Q.

(** [assert.EqualValues(t, m+1, inputBounds[m].(valuedBounds).Value())]
    for an [m] already known to index [inputBounds] at [b]. *)
Definition assert_value (b : valuedTestBounds) (m : Z) : bool :=
  bool_decide ((m + 1)%Z = Value b).

Definition Valued_Case_Example_body (inputBounds : list valuedTestBounds)
    (matchedIndex : Z) : option bool :=
  b ← loadZ inputBounds matchedIndex;
  Some (match matchedIndex with
        | 0 => assert_limits b 4 6 && assert_value b matchedIndex
        | 2 => assert_limits b 4 8 && assert_value b matchedIndex
        | 5 => assert_limits b 3 6 && assert_value b matchedIndex
        | 9 => assert_limits b 3.2 7.5 && assert_value b matchedIndex
        | 10 => assert_limits b 4.1 4.9 && assert_value b matchedIndex
        | _ => true
        end)%Z.

Definition Test_Tree_Valued_Case_Example (rand : nat → nat)
  : option bool :=
  let inputBounds := valued_example in
  tree ← NewINTree rand inputBounds;
  matches ← Including tree 4.3%Q;
  oks ← mapM (Valued_Case_Example_body inputBounds) matches;
  Some (bool_decide (length matches = 5) && forallb id oks).

(** The assertion on [matches[k]]. *)
Definition assert_value_at (inputBounds : list valuedTestBounds)
    (matches : list Z) (k : nat) : option bool :=
  m ← matches !! k;
  b ← loadZ inputBounds m;
  Some (assert_value b m).

(** The cases that build one tree and, for some points, count the matches
    and check the values at [matches[0]], ..., [matches[n-1]]. *)
Definition valued_case (rand : nat → nat)
    (inputBounds : list valuedTestBounds) (expected : list (float64 * nat))
  : option bool :=
  tree ← NewINTree rand inputBounds;
  oks ← mapM (λ '(val, n),
               matches ← Including tree val;
               oks ← mapM (assert_value_at inputBounds matches) (seq 0 n);
               Some (bool_decide (length matches = n) && forallb id oks))
             expected;
  Some (forallb id oks).

Definition Test_Tree_Valued_nil_bounds (rand : nat → nat) : option bool :=
  valued_case rand [] [(4.3%Q, 0)].

Definition Test_Tree_Valued_single_interval (rand : nat → nat)
  : option bool :=
  valued_case rand [mkVTB 4 6 1] [(4.3%Q, 1); (7%Q, 0)].

Definition Test_Tree_Valued_repeated_interval (rand : nat → nat)
  : option bool :=
  valued_case rand [mkVTB 4 6 1; mkVTB 4 6 2] [(4.3%Q, 2); (7%Q, 0)].

Definition Test_Tree_Valued_overlap_at_boundary (rand : nat → nat)
  : option bool :=
  valued_case rand [mkVTB 4 6 1; mkVTB 6 9 2; mkVTB 9 11 3]
    [(6%Q, 2); (9%Q, 2)].

Definition Test_Tree_Valued_fine_grained (rand : nat → nat) : option bool :=
  valued_case rand
    [mkVTB 3.43567981e-21 3.43567984e-21 1;
     mkVTB 3.43567987e-21 3.43567990e-21 2]%Q
    [(3.43567985e-21%Q, 0); (3.43567987e-21%Q, 1); (3.43567988e-21%Q, 1)].

(** Every range on the stack has at least as many slots and gaps (its
    size plus one) as all the ranges above it together; [above] counts
    those of the ranges already passed. *)
Fixpoint dominated (above : Z) (stock : list Z) : Prop :=
  match stock with
  | [] => True
  | r :: l :: stock =>
    (above ≤ r - l + 2)%Z ∧ dominated (above + (r - l + 2)) stock
  | [_] => False
  end.

(** * Verification *)

(** ** Float comparisons *)

Lemma f64_le_spec a b : f64_le a b = true ↔ (a <= b)%Q.
Proof. apply Qle_bool_iff. Qed.

Lemma f64_lt_spec a b : f64_lt a b = true ↔ (a < b)%Q.
Proof.
  unfold f64_lt. rewrite negb_true_iff. split.
  - intros Hn. apply Qnot_le_lt. intros Hle.
    apply Qle_bool_iff in Hle. congruence.
  - intros Hlt. destruct (Qle_bool b a) eqn:E; [|done].
    apply Qle_bool_iff in E. by apply Qlt_not_le in Hlt.
Qed.

Lemma f64_lt_false a b : f64_lt a b = false ↔ (b <= a)%Q.
Proof.
  unfold f64_lt. rewrite negb_false_iff. apply Qle_bool_iff.
Qed.

Lemma f64_le_false a b : f64_le a b = false ↔ (b < a)%Q.
Proof.
  split.
  - intros Hn. apply Qnot_le_lt. intros Hle.
    apply f64_le_spec in Hle. congruence.
  - intros Hlt. destruct (f64_le a b) eqn:E; [|done].
    apply f64_le_spec in E. by apply Qlt_not_le in Hlt.
Qed.

(** ** Loops *)

Lemma for_range_S {S} n (body : S → nat → option S) s :
  for_range (Datatypes.S n) body s = for_range n body s ≫= λ s, body s n.
Proof. unfold for_range. by rewrite seq_S, foldl_app. Qed.

(** A loop that keeps an invariant runs to its end. *)
Lemma for_range_inv {S} (P : nat → S → Prop) n (body : S → nat → option S) s :
  P 0 s →
  (∀ i s, i < n → P i s → ∃ s', body s i = Some s' ∧ P (Datatypes.S i) s') →
  ∃ s', for_range n body s = Some s' ∧ P n s'.
Proof.
  intros H0 Hstep. induction n as [|n IH].
  - by exists s.
  - destruct IH as (s1 & E1 & P1); [intros; apply Hstep; auto with lia|].
    destruct (Hstep n s1) as (s2 & E2 & P2); [lia|done|].
    exists s2. by rewrite for_range_S, E1.
Qed.

Lemma store_Some {A} (s : list A) i v :
  i < length s → store s i v = Some (<[i:=v]> s).
Proof. intros. unfold store. by rewrite decide_True. Qed.

Lemma slice_to_Some {A} (s : list A) k :
  k ≤ length s → slice_to s k = Some (take k s).
Proof. intros. unfold slice_to. by rewrite decide_True. Qed.

Lemma slice_from_Some {A} (s : list A) k :
  k ≤ length s → slice_from s k = Some (drop k s).
Proof. intros. unfold slice_from. by rewrite decide_True. Qed.

Lemma loadZ_nat {A} (s : list A) (i : nat) : loadZ s (Z.of_nat i) = s !! i.
Proof. unfold loadZ. rewrite decide_True by lia. by rewrite Nat2Z.id. Qed.

(** ** The flat layout *)

Lemma length_flat ss : length (flat ss) = 3 * length ss.
Proof. induction ss as [|s ss IH]; simpl; lia. Qed.

Lemma flat_app ss1 ss2 : flat (ss1 ++ ss2) = flat ss1 ++ flat ss2.
Proof. induction ss1 as [|s ss1 IH]; simpl; by rewrite ?IH. Qed.

Lemma flat_take n ss : take (3 * n) (flat ss) = flat (take n ss).
Proof.
  revert ss. induction n as [|n IH]; intros [|s ss]; try done.
  replace (3 * S n) with (S (S (S (3 * n)))) by lia. simpl. by rewrite IH.
Qed.

Lemma flat_drop n ss : drop (3 * n) (flat ss) = flat (drop n ss).
Proof.
  revert ss. induction n as [|n IH]; intros [|s ss]; try done.
  replace (3 * S n) with (S (S (S (3 * n)))) by lia. simpl. by rewrite IH.
Qed.

Lemma flat_lookup ss i k :
  k < 3 → flat ss !! (3 * i + k) = field k <$> ss !! i.
Proof.
  intros Hk. revert ss. induction i as [|i IH]; intros [|s ss]; try done.
  - destruct k as [|[|[|k]]]; try done; lia.
  - replace (3 * S i + k) with (S (S (S (3 * i + k)))) by lia. apply IH.
Qed.

Lemma flat_insert ss i k v :
  k < 3 → <[3 * i + k := v]> (flat ss) = flat (alter (set_field k v) i ss).
Proof.
  intros Hk. revert ss. induction i as [|i IH]; intros [|s ss]; try done.
  - destruct k as [|[|[|k]]]; try done; lia.
  - replace (3 * S i + k) with (S (S (S (3 * i + k)))) by lia.
    change (flat (alter (set_field k v) (S i) (s :: ss)))
      with (s_lower s :: s_upper s :: s_max s
              :: flat (alter (set_field k v) i ss)).
    rewrite <- IH. done.
Qed.

Lemma length_lims es : length (lims es) = 3 * length es.
Proof. unfold lims. by rewrite length_flat, length_fmap. Qed.

Lemma length_idxs es : length (idxs es) = length es.
Proof. apply length_fmap. Qed.

Lemma lims_lookup es i k :
  k < 3 → lims es !! (3 * i + k) = (field k ∘ snd) <$> es !! i.
Proof.
  intros. unfold lims. rewrite flat_lookup by done.
  rewrite list_lookup_fmap. by rewrite <- option_fmap_compose.
Qed.

Lemma lims_lookup0 es i : lims es !! (3 * i) = (s_lower ∘ snd) <$> es !! i.
Proof.
  replace (3 * i) with (3 * i + 0) by lia. by rewrite lims_lookup by lia.
Qed.

Lemma lims_app es1 es2 : lims (es1 ++ es2) = lims es1 ++ lims es2.
Proof. unfold lims. by rewrite fmap_app, flat_app. Qed.

Lemma lims_take n es : take (3 * n) (lims es) = lims (take n es).
Proof. unfold lims. by rewrite flat_take, fmap_take. Qed.

Lemma lims_drop n es : drop (3 * n) (lims es) = lims (drop n es).
Proof. unfold lims. by rewrite flat_drop, fmap_drop. Qed.

Lemma idxs_app es1 es2 : idxs (es1 ++ es2) = idxs es1 ++ idxs es2.
Proof. apply fmap_app. Qed.
#[local] Arguments Nat.mul : simpl never.

Lemma lims_lookup1 es i :
  lims es !! (3 * i + 1) = (s_upper ∘ snd) <$> es !! i.
Proof. by rewrite lims_lookup by lia. Qed.

Lemma lims_lookup2 es i :
  lims es !! (3 * i + 2) = (s_max ∘ snd) <$> es !! i.
Proof. by rewrite lims_lookup by lia. Qed.

Lemma flat_lookup0 ss i : flat ss !! (3 * i) = s_lower <$> ss !! i.
Proof.
  replace (3 * i) with (3 * i + 0) by lia. by rewrite flat_lookup by lia.
Qed.

Lemma store_flat ss i k v :
  k < 3 → i < length ss →
  store (flat ss) (3 * i + k) v = Some (flat (alter (set_field k v) i ss)).
Proof.
  intros. rewrite store_Some by (rewrite length_flat; lia).
  by rewrite flat_insert.
Qed.

Lemma store_flat0 ss i v :
  i < length ss →
  store (flat ss) (3 * i) v = Some (flat (alter (set_field 0 v) i ss)).
Proof.
  intros. replace (3 * i) with (3 * i + 0) by lia. apply store_flat; lia.
Qed.

(** ** Exchanging two slots *)

Lemma length_exch {A} (l : list A) a b : length (exch l a b) = length l.
Proof.
  unfold exch. destruct (l !! a), (l !! b); by rewrite ?length_insert.
Qed.

Lemma exch_lookup {A} (l : list A) a b j :
  a < length l → b < length l →
  exch l a b !! j =
    if decide (j = b) then l !! a else if decide (j = a) then l !! b
    else l !! j.
Proof.
  intros Ha Hb. unfold exch.
  destruct (lookup_lt_is_Some_2 l a Ha) as [x Hx].
  destruct (lookup_lt_is_Some_2 l b Hb) as [y Hy].
  rewrite Hx, Hy.
  destruct (decide (j = b)) as [->|].
  { by rewrite list_lookup_insert_eq by (by rewrite length_insert). }
  rewrite list_lookup_insert_ne by done.
  destruct (decide (j = a)) as [->|].
  { by rewrite list_lookup_insert_eq. }
  by rewrite list_lookup_insert_ne.
Qed.

Lemma exch_fmap {A B} (f : A → B) (l : list A) a b :
  f <$> exch l a b = exch (f <$> l) a b.
Proof.
  unfold exch. rewrite !list_lookup_fmap.
  destruct (l !! a), (l !! b); simpl; by rewrite ?list_fmap_insert.
Qed.

Lemma exch_perm {A} (l : list A) a b : exch l a b ≡ₚ l.
Proof.
  destruct (decide (a < length l)) as [Ha|];
    [|unfold exch; by rewrite (lookup_ge_None_2 l a) by lia].
  destruct (decide (b < length l)) as [Hb|];
    [|unfold exch; rewrite (lookup_ge_None_2 l b) by lia; by destruct (l !! a)].
  apply Permutation_inj. split; [apply length_exch|].
  exists (λ j, if decide (j = b) then a else if decide (j = a) then b else j).
  split.
  - intros i j. repeat case_decide; intros; simplify_eq; done.
  - intros j. rewrite exch_lookup by done. by repeat case_decide.
Qed.

Lemma exch_take_le {A} (l : list A) a b n :
  n ≤ a → n ≤ b → take n (exch l a b) = take n l.
Proof.
  intros. unfold exch. destruct (l !! a), (l !! b); try done.
  by rewrite !take_insert_ge by lia.
Qed.

Lemma swapIndexes_spec es a b :
  a < length es → b < length es →
  swapIndexes (idxs es) a b = Some (idxs (exch es a b)).
Proof.
  intros Ha Hb. unfold idxs. rewrite exch_fmap.
  assert (La : a < length es.*1) by (by rewrite length_fmap).
  assert (Lb : b < length es.*1) by (by rewrite length_fmap).
  generalize dependent (es.*1). clear. intros ix Ha Hb.
  destruct (lookup_lt_is_Some_2 ix a Ha) as [x Hx].
  destruct (lookup_lt_is_Some_2 ix b Hb) as [y Hy].
  unfold swapIndexes, load, exch. rewrite Hx, Hy. simpl.
  rewrite store_Some by done. simpl.
  by rewrite store_Some by (by rewrite length_insert).
Qed.

Lemma swapLimits_flat ss a b :
  a < length ss → b < length ss →
  swapLimits (flat ss) a b = Some (flat (exch ss a b)).
Proof.
  intros Ha Hb.
  destruct (lookup_lt_is_Some_2 ss a Ha) as [x Hx].
  destruct (lookup_lt_is_Some_2 ss b Hb) as [y Hy].
  unfold swapLimits, load.
  rewrite !flat_lookup0, !flat_lookup by lia. rewrite Hx, Hy. simpl.
  rewrite store_flat0 by done. simpl.
  do 2 (rewrite store_flat by (rewrite ?length_alter; lia); simpl).
  rewrite store_flat0 by (by rewrite ?length_alter). simpl.
  do 2 (rewrite store_flat by (rewrite ?length_alter; lia); simpl).
  f_equal. f_equal. apply list_eq. intros j.
  rewrite exch_lookup by done.
  destruct (decide (j = b)) as [->|].
  { rewrite !list_lookup_alter_eq.
    destruct (decide (a = b)) as [->|].
    - rewrite !list_lookup_alter_eq.
      rewrite Hy. simplify_eq. by destruct x.
    - rewrite !list_lookup_alter_ne by done. rewrite Hx, Hy. by destruct x. }
  rewrite !(list_lookup_alter_ne _ _ b) by done.
  destruct (decide (j = a)) as [->|].
  { rewrite !list_lookup_alter_eq. rewrite Hx, Hy. by destruct y. }
  by rewrite !list_lookup_alter_ne by done.
Qed.

Lemma swapLimits_spec es a b :
  a < length es → b < length es →
  swapLimits (lims es) a b = Some (lims (exch es a b)).
Proof.
  intros. unfold lims. rewrite exch_fmap.
  apply swapLimits_flat; by rewrite length_fmap.
Qed.

(** ** sort: the partition loop *)

Lemma lims_load0 es i e :
  es !! i = Some e → load (lims es) (3 * i) = Some (lower_of e).
Proof. intros E. unfold load. by rewrite lims_lookup0, E. Qed.

Lemma lims_load1 es i e :
  es !! i = Some e → load (lims es) (3 * i + 1) = Some (upper_of e).
Proof. intros E. unfold load. by rewrite lims_lookup1, E. Qed.

Lemma lims_load2 es i e :
  es !! i = Some e → load (lims es) (3 * i + 2) = Some (max_of e).
Proof. intros E. unfold load. by rewrite lims_lookup2, E. Qed.

Lemma partition_step es r pv i st :
  length es = S r → i < S r → partition_inv es r pv i st →
  ∃ st', sort_body r st i = Some st' ∧ partition_inv es r pv (S i) st'.
Proof.
  intros Hlen Hi (es' & l & -> & Hperm & Hli & Hlr & Hpv & Hlt & Hge).
  assert (Hlen' : length es' = S r) by (by rewrite Hperm).
  destruct (lookup_lt_is_Some_2 es' i) as [x Hx]; [lia|].
  unfold sort_body. rewrite (lims_load0 _ _ _ Hx), (lims_load0 _ _ _ Hpv).
  simpl. destruct (f64_lt (lower_of x) (lower_of pv)) eqn:Hcmp.
  - apply f64_lt_spec in Hcmp.
    assert (i ≠ r).
    { intros ->. simplify_eq. by apply Qlt_irrefl in Hcmp. }
    rewrite swapIndexes_spec, swapLimits_spec by lia. simpl.
    eexists. split; [done|].
    exists (exch es' l i), (S l).
    split_and!; try done; try lia.
    + by rewrite exch_perm.
    + rewrite exch_lookup by lia. by rewrite !decide_False by lia.
    + intros j e Hj. rewrite exch_lookup by lia.
      destruct (decide (j = i)) as [->|].
      { intros. assert (l = i) as -> by lia. by simplify_eq. }
      destruct (decide (j = l)) as [->|]; [intros; by simplify_eq|].
      apply Hlt. lia.
    + intros j e Hj. rewrite exch_lookup by lia.
      destruct (decide (j = i)) as [->|]; [apply Hge; lia|].
      rewrite decide_False by lia. apply Hge. lia.
  - apply f64_lt_false in Hcmp.
    eexists. split; [done|].
    exists es', l. split_and!; try done; try lia.
    intros j e Hj He. destruct (decide (j = i)) as [->|].
    + by simplify_eq.
    + apply (Hge j); [lia|done].
Qed.

Lemma partition_loop es r pv :
  length es = S r → es !! r = Some pv →
  ∃ es' l,
    for_range (length es) (sort_body r) (lims es, idxs es, 0)
      = Some (lims es', idxs es', l) ∧
    es' ≡ₚ es ∧ l ≤ r ∧ es' !! r = Some pv ∧
    (∀ j e, j < l → es' !! j = Some e → (lower_of e < lower_of pv)%Q) ∧
    (∀ j e, l ≤ j → es' !! j = Some e → (lower_of pv <= lower_of e)%Q).
Proof.
  intros Hlen Hpv.
  destruct (for_range_inv (partition_inv es r pv) (length es) (sort_body r)
              (lims es, idxs es, 0)) as (st & Hrun & Hinv).
  - exists es, 0. split_and!; try done; try lia; intros; lia.
  - intros i st Hi. apply partition_step; [done|lia].
  - destruct Hinv as (es' & l & -> & Hperm & _ & Hlr & Hpv' & Hlt & Hge).
    exists es', l. split_and!; try done.
    intros j e Hj He. apply (Hge j); [|done].
    apply lookup_lt_Some in He. rewrite Hperm in He. lia.
Qed.

(** ** sort: permutation and order *)

Lemma idxs_take n es : take n (idxs es) = idxs (take n es).
Proof. unfold idxs. by rewrite fmap_take. Qed.

Lemma idxs_drop n es : drop n (idxs es) = idxs (drop n es).
Proof. unfold idxs. by rewrite fmap_drop. Qed.

Lemma sort_rec_small fuel rand k lim ix :
  length ix < 2 → sort_rec fuel rand k lim ix = Some (k, lim, ix).
Proof. intros. destruct fuel; simpl; by rewrite decide_True. Qed.

Lemma sorted_small (es : list entry) :
  length es < 2 → StronglySorted le_lower es.
Proof.
  destruct es as [|e [|e' es]]; simpl; intros; try lia.
  - constructor.
  - repeat constructor.
Qed.

(** What [sort] leaves around the pivot: a sorted prefix below it and a
    sorted suffix not below it. *)
Lemma sorted_around_pivot (esL esR : list entry) pv :
  StronglySorted le_lower esL → StronglySorted le_lower esR →
  Forall (λ e, (lower_of e < lower_of pv)%Q) esL →
  Forall (λ e, (lower_of pv <= lower_of e)%Q) esR →
  StronglySorted le_lower (esL ++ pv :: esR).
Proof.
  intros HL HR HltL HgeR. apply StronglySorted_app_2; [|done|].
  - intros x y Hx Hy. rewrite Forall_forall in HltL, HgeR.
    specialize (HltL x Hx). unfold le_lower.
    apply elem_of_cons in Hy as [->|Hy].
    + by apply Qlt_le_weak.
    + specialize (HgeR y Hy). apply Qlt_le_weak.
      by eapply Qlt_le_trans.
  - apply StronglySorted_cons. split; [|done].
    eapply Forall_impl; [exact HgeR|]. done.
Qed.

Lemma sort_rec_spec rand fuel : ∀ (es : list entry) k,
  length es ≤ fuel →
  ∃ k' es',
    sort_rec fuel rand k (lims es) (idxs es) = Some (k', lims es', idxs es') ∧
    es' ≡ₚ es ∧ StronglySorted le_lower es'.
Proof.
  induction fuel as [|fuel IH]; intros es k Hfuel.
  { exists k, es. split_and!; [|done|apply sorted_small; lia].
    apply sort_rec_small. rewrite length_idxs. lia. }
  destruct (decide (length es < 2)) as [Hsmall|Hbig].
  { exists k, es. split_and!; [|done|by apply sorted_small].
    apply sort_rec_small. by rewrite length_idxs. }
  simpl. rewrite decide_False by (by rewrite length_idxs).
  rewrite length_idxs.
  set (n := length es) in *. set (r := n - 1). set (p := rand k `mod` n).
  assert (Hp : p < n) by (apply Nat.mod_upper_bound; lia).
  rewrite swapIndexes_spec, swapLimits_spec by lia. simpl.
  set (es1 := exch es p r).
  assert (Hlen1 : length es1 = S r) by (unfold es1; rewrite length_exch; lia).
  destruct (lookup_lt_is_Some_2 es1 r) as [pv Hpv]; [lia|].
  destruct (partition_loop es1 r pv Hlen1 Hpv)
    as (es2 & l & Hrun & Hperm2 & Hlr & Hpv2 & Hlt & Hge).
  rewrite length_idxs, Hlen1. rewrite Hlen1 in Hrun.
  replace (S r) with n in * by lia. rewrite Hrun. simpl.
  assert (Hlen2 : length es2 = n) by (rewrite Hperm2; lia).
  rewrite swapIndexes_spec, swapLimits_spec by lia. simpl.
  set (es3 := exch es2 l r).
  assert (Hlen3 : length es3 = n) by (unfold es3; by rewrite length_exch).
  assert (Hpv3 : es3 !! l = Some pv).
  { unfold es3. rewrite exch_lookup by lia.
    destruct (decide (l = r)) as [->|]; [done|]. by rewrite decide_True. }
  rewrite !slice_to_Some by (rewrite ?length_lims, ?length_idxs; lia). simpl.
  rewrite lims_take, idxs_take.
  destruct (IH (take l es3) (S k)) as (k1 & esL & -> & HpermL & HsortL).
  { rewrite length_take. lia. }
  simpl.
  assert (HlenL : length esL = l) by (rewrite HpermL, length_take; lia).
  rewrite lims_drop, <- lims_app, idxs_drop, <- idxs_app.
  replace (3 * l + 3) with (3 * (l + 1)) by lia.
  rewrite !slice_from_Some
    by (rewrite ?length_lims, ?length_idxs, length_app, length_drop; lia).
  simpl. rewrite lims_drop, idxs_drop.
  rewrite drop_app_ge by lia. rewrite HlenL.
  replace (l + 1 - l) with 1 by lia. rewrite drop_drop.
  destruct (IH (drop (l + 1) es3) k1) as (k2 & esR & -> & HpermR & HsortR).
  { rewrite length_drop. lia. }
  simpl. rewrite lims_take, <- lims_app, idxs_take, <- idxs_app.
  rewrite take_app_ge by lia. rewrite HlenL.
  replace (l + 1 - l) with 1 by lia.
  assert (Hmid : take 1 (drop l es3) = [pv]).
  { rewrite <- (take_drop_middle es3 l pv Hpv3) at 1.
    rewrite drop_app_length' by (rewrite length_take; lia). done. }
  rewrite Hmid.
  exists k2, ((esL ++ [pv]) ++ esR). split_and!; [done| |].
  - rewrite HpermL, HpermR, <- (assoc_L (++)). simpl.
    rewrite Nat.add_1_r, take_drop_middle by done.
    unfold es3. rewrite exch_perm, Hperm2. apply exch_perm.
  - rewrite <- (assoc_L (++)). simpl.
    apply sorted_around_pivot; [done|done| |].
    + rewrite HpermL. apply Forall_lookup_2. intros j e He.
      apply lookup_take_Some in He as [He Hj].
      unfold es3 in He. rewrite exch_lookup in He by lia.
      rewrite !decide_False in He by lia. by apply (Hlt j).
    + rewrite HpermR. apply Forall_lookup_2. intros j e He.
      rewrite lookup_drop in He.
      unfold es3 in He. rewrite exch_lookup in He by lia.
      destruct (decide (l + 1 + j = r)).
      * apply (Hge l); [lia|done].
      * rewrite decide_False in He by lia. apply (Hge (l + 1 + j)); [lia|done].
Qed.

Lemma sort_spec rand (es : list entry) k :
  ∃ k' es',
    sort rand k (lims es) (idxs es) = Some (k', lims es', idxs es') ∧
    es' ≡ₚ es ∧ StronglySorted le_lower es'.
Proof.
  unfold sort. apply sort_rec_spec. by rewrite length_idxs.
Qed.

(** ** augment *)

Lemma scan_step_ge (m u : float64) :
  let m' := if f64_gt u m then u else m in (m <= m')%Q ∧ (u <= m')%Q.
Proof.
  simpl. unfold f64_gt. destruct (f64_lt m u) eqn:E.
  - apply f64_lt_spec in E. split; [by apply Qlt_le_weak|apply Qle_refl].
  - apply f64_lt_false in E. split; [apply Qle_refl|done].
Qed.

Lemma scan_foldl_ge (us : list float64) (m0 : float64) :
  let m := foldl (λ m u, if f64_gt u m then u else m) m0 us in
  (m0 <= m)%Q ∧ Forall (λ u, (u <= m)%Q) us.
Proof.
  simpl. revert m0. induction us as [|u us IH]; intros m0; simpl.
  - split; [apply Qle_refl|constructor].
  - destruct (scan_step_ge m0 u) as [H1 H2]. simpl in H1, H2.
    destruct (IH (if f64_gt u m0 then u else m0)) as [H3 H4].
    split; [by eapply Qle_trans|].
    constructor; [by eapply Qle_trans|done].
Qed.

Lemma scan_max_ge us : Forall (λ u, (u <= scan_max us)%Q) us.
Proof. apply (scan_foldl_ge us 0%Q). Qed.

Lemma scan_max_nonneg us : (0 <= scan_max us)%Q.
Proof. apply (scan_foldl_ge us 0%Q). Qed.

Lemma scan_loop (es : list entry) :
  for_range (length es) (augment_body (lims es)) 0%Q
    = Some (scan_max (upper_of <$> es)).
Proof.
  assert (∀ i, i ≤ length es →
    for_range i (augment_body (lims es)) 0%Q
      = Some (scan_max (upper_of <$> take i es))) as H.
  { induction i as [|i IH]; intros Hi; [done|].
    rewrite for_range_S, IH by lia. simpl.
    destruct (lookup_lt_is_Some_2 es i) as [e He]; [lia|].
    unfold augment_body. rewrite (lims_load1 _ _ _ He). simpl.
    rewrite (take_S_r _ _ _ He), fmap_app. unfold scan_max.
    by rewrite foldl_app. }
  rewrite H by done. by rewrite firstn_all.
Qed.

Lemma augment_root_half n : augment_root n = n / 2.
Proof. unfold augment_root. by rewrite Nat.shiftr_div_pow2, Nat.pow_1_r. Qed.

Lemma fmap_alter_commute {A B} (f : A → B) (g : A → A) (h : B → B)
    (l : list A) (i : nat) :
  (∀ x, f (g x) = h (f x)) → f <$> alter g i l = alter h i (f <$> l).
Proof. intros Hc. apply list_fmap_alter. by apply Forall_true. Qed.

Lemma lims_store es i k v :
  k < 3 → i < length es →
  store (lims es) (3 * i + k) v = Some (lims (alter (set_fld k v) i es)).
Proof.
  intros. unfold lims.
  rewrite store_flat by (rewrite ?length_fmap; lia).
  by rewrite (fmap_alter_commute snd (set_fld k v) (set_field k v)).
Qed.

Lemma lims_store0 es i v :
  i < length es →
  store (lims es) (3 * i) v = Some (lims (alter (set_fld 0 v) i es)).
Proof.
  intros. replace (3 * i) with (3 * i + 0) by lia. apply lims_store; lia.
Qed.

Lemma idxs_set_fld es i k v : idxs (alter (set_fld k v) i es) = idxs es.
Proof.
  unfold idxs. rewrite (fmap_alter_commute fst (set_fld k v) id) by done.
  by rewrite list_alter_id.
Qed.

Lemma idxs_store es i v :
  i < length es →
  store (idxs es) i v = Some (idxs (alter (set_idx v) i es)).
Proof.
  intros. rewrite store_Some by (by rewrite length_idxs). unfold idxs.
  rewrite (fmap_alter_commute fst (set_idx v) (λ _, v)) by done.
  by rewrite list_insert_alter.
Qed.

Lemma lims_set_idx es i v : lims (alter (set_idx v) i es) = lims es.
Proof.
  unfold lims. rewrite (fmap_alter_commute snd (set_idx v) id) by done.
  by rewrite list_alter_id.
Qed.

Lemma bounds_of_set_max (es : list entry) (i : nat) v :
  bounds_of <$> alter (set_fld 2 v) i es = bounds_of <$> es.
Proof.
  rewrite (fmap_alter_commute bounds_of (set_fld 2 v) id) by done.
  by rewrite list_alter_id.
Qed.

Lemma upper_of_bounds_of (es : list entry) :
  upper_of <$> es = (λ b : Z * float64 * float64, b.2) <$> (bounds_of <$> es).
Proof. by rewrite <- list_fmap_compose. Qed.

Lemma lower_of_bounds_of (es : list entry) :
  lower_of <$> es
  = (λ b : Z * float64 * float64, b.1.2) <$> (bounds_of <$> es).
Proof. by rewrite <- list_fmap_compose. Qed.

Lemma idxs_bounds_of es :
  idxs es = (λ b : Z * float64 * float64, b.1.1) <$> (bounds_of <$> es).
Proof. unfold idxs. by rewrite <- list_fmap_compose. Qed.

Lemma augment_rec_small fuel lim ix :
  length ix < 1 → augment_rec fuel lim ix = Some lim.
Proof. intros. destruct fuel; simpl; by rewrite decide_True. Qed.

Lemma augment_rec_spec fuel : ∀ es : list entry,
  length es ≤ fuel →
  ∃ es',
    augment_rec fuel (lims es) (idxs es) = Some (lims es') ∧
    bounds_of <$> es' = bounds_of <$> es ∧ Augmented es'.
Proof.
  induction fuel as [|fuel IH]; intros es Hfuel.
  { exists es. destruct es; [|simpl in Hfuel; lia].
    split_and!; [done|done|constructor]. }
  destruct (decide (length es < 1)) as [Hsmall|Hbig].
  { exists es. destruct es; [|simpl in Hsmall; lia].
    split_and!; [done|done|constructor]. }
  simpl augment_rec. rewrite decide_False by (by rewrite length_idxs).
  rewrite length_idxs, scan_loop. simpl. rewrite augment_root_half.
  set (n := length es) in *. set (r := n / 2).
  assert (Hr : r < n) by (unfold r; apply Nat.div_lt; lia).
  rewrite lims_store by (done || lia). simpl.
  set (es1 := alter (set_fld 2 (scan_max (upper_of <$> es))) r es).
  assert (Hlen1 : length es1 = n) by (unfold es1; by rewrite length_alter).
  destruct (lookup_lt_is_Some_2 es1 r) as [c Hc]; [lia|].
  rewrite !slice_to_Some by (rewrite ?length_lims, ?length_idxs; lia). simpl.
  rewrite lims_take, idxs_take.
  replace (take r es) with (take r es1)
    by (unfold es1; by rewrite take_alter_ge).
  destruct (IH (take r es1)) as (esL & -> & HbL & HaugL).
  { rewrite length_take. lia. }
  simpl.
  assert (HlenL : length esL = r).
  { rewrite <- (length_fmap bounds_of), HbL, length_fmap, length_take. lia. }
  rewrite lims_drop, <- lims_app.
  replace (3 * r + 3) with (3 * (r + 1)) by lia.
  rewrite !slice_from_Some
    by (rewrite ?length_lims, ?length_idxs, ?length_app, ?length_drop; lia).
  simpl. rewrite lims_drop.
  rewrite drop_app_ge by lia. rewrite HlenL.
  replace (r + 1 - r) with 1 by lia. rewrite drop_drop.
  replace (drop (r + 1) (idxs es)) with (idxs (drop (r + 1) es1)).
  2:{ rewrite <- !idxs_drop. unfold es1. by rewrite idxs_set_fld. }
  destruct (IH (drop (r + 1) es1)) as (esR & -> & HbR & HaugR).
  { rewrite length_drop. lia. }
  simpl. rewrite lims_take, <- lims_app.
  rewrite take_app_ge by lia. rewrite HlenL.
  replace (r + 1 - r) with 1 by lia.
  assert (Hmid : take 1 (drop r es1) = [c]).
  { rewrite <- (take_drop_middle es1 r c Hc) at 1.
    rewrite drop_app_length' by (rewrite length_take; lia). done. }
  rewrite Hmid, <- (assoc_L (++)). simpl.
  assert (Hb : bounds_of <$> esL ++ c :: esR = bounds_of <$> es).
  { rewrite fmap_app, fmap_cons, HbL, HbR, <- fmap_cons, <- fmap_app.
    rewrite Nat.add_1_r, take_drop_middle by done.
    apply bounds_of_set_max. }
  exists (esL ++ c :: esR). split_and!; [done|done|].
  constructor; [| |done|done].
  - rewrite augment_root_half, <- (length_fmap bounds_of (esL ++ c :: esR)), Hb,
      length_fmap. exact HlenL.
  - rewrite upper_of_bounds_of, Hb, <- upper_of_bounds_of.
    unfold es1 in Hc. rewrite list_lookup_alter_eq in Hc.
    destruct (es !! r); by simplify_eq/=.
Qed.

Lemma augment_spec (es : list entry) :
  ∃ es',
    augment (lims es) (idxs es) = Some (lims es') ∧
    bounds_of <$> es' = bounds_of <$> es ∧ Augmented es'.
Proof. unfold augment. apply augment_rec_spec. by rewrite length_idxs. Qed.

(** ** Construction *)

Lemma flat_replicate_zero n :
  flat (replicate n (Slot 0%Q 0%Q 0%Q)) = replicate (3 * n) 0%Q.
Proof.
  induction n as [|n IH]; [done|].
  replace (3 * S n) with (S (S (S (3 * n)))) by lia. simpl. by rewrite IH.
Qed.

Lemma lims_replicate_zero n :
  lims (replicate n zero_entry) = replicate (3 * n) 0%Q.
Proof. unfold lims. by rewrite fmap_replicate, flat_replicate_zero. Qed.

Lemma idxs_replicate_zero n : idxs (replicate n zero_entry) = replicate n 0%Z.
Proof. unfold idxs. by rewrite fmap_replicate. Qed.

Lemma length_initial_entries `{Bounds B} (bounds : list B) :
  length (initial_entries bounds) = length bounds.
Proof. apply length_imap. Qed.

Lemma build_loop `{Bounds B} (bounds : list B) :
  for_each bounds build_body
    (replicate (3 * length bounds) 0%Q, replicate (length bounds) 0%Z)
  = Some (lims (initial_entries bounds), idxs (initial_entries bounds)).
Proof.
  set (n := length bounds). set (es0 := initial_entries bounds).
  unfold for_each. fold n.
  destruct (for_range_inv
    (λ i st, ∃ es : list entry, st = (lims es, idxs es) ∧ length es = n ∧
             ∀ j, j < i → es !! j = es0 !! j)
    n (λ s i, v ← bounds !! i; build_body s i v)
    (replicate (3 * n) 0%Q, replicate n 0%Z)) as (st & Hrun & Hinv).
  - exists (replicate n zero_entry).
    rewrite lims_replicate_zero, idxs_replicate_zero, length_replicate.
    split_and!; [done|done|]. intros; lia.
  - intros i st Hi (es & -> & Hlen & Hpre).
    destruct (lookup_lt_is_Some_2 bounds i) as [b Hb]; [done|].
    rewrite Hb. simpl. unfold build_body.
    rewrite idxs_store by lia. simpl.
    destruct (Limits b) as [lo up] eqn:Hlim.
    rewrite <- (lims_set_idx es i (Z.of_nat i)).
    rewrite lims_store0 by (rewrite ?length_alter; lia). simpl.
    rewrite lims_store by (rewrite ?length_alter; lia). simpl.
    rewrite lims_store by (rewrite ?length_alter; lia). simpl.
    rewrite <- (idxs_set_fld _ i 0 lo), <- (idxs_set_fld _ i 1 up),
      <- (idxs_set_fld _ i 2 0%Q).
    eexists. split; [done|]. eexists. split_and!; [done| |].
    + by rewrite !length_alter.
    + intros j Hj. destruct (decide (j = i)) as [->|].
      * rewrite !list_lookup_alter_eq.
        destruct (lookup_lt_is_Some_2 es i) as [e ->]; [lia|].
        unfold es0, initial_entries. rewrite list_lookup_imap, Hb. simpl.
        by rewrite Hlim.
      * rewrite !list_lookup_alter_ne by done. apply Hpre. lia.
  - destruct Hinv as (es & -> & Hlen & Hpre). rewrite Hrun.
    replace es with es0; [done|]. apply list_eq. intros j.
    destruct (decide (j < n)); [by rewrite Hpre|].
    rewrite !lookup_ge_None_2; [done| |].
    + lia.
    + unfold es0. rewrite length_initial_entries. fold n. lia.
Qed.

Lemma sorted_lowers (es : list entry) :
  StronglySorted le_lower es ↔ StronglySorted Qle (lower_of <$> es).
Proof.
  induction es as [|e es IH]; [split; constructor|].
  rewrite fmap_cons, !StronglySorted_cons, IH, Forall_fmap. done.
Qed.

Lemma le_lower_bounds_of (es es' : list entry) :
  bounds_of <$> es' = bounds_of <$> es →
  StronglySorted le_lower es → StronglySorted le_lower es'.
Proof.
  intros Hb. rewrite !sorted_lowers, !lower_of_bounds_of. by rewrite Hb.
Qed.

Lemma buildTree_spec `{Bounds B} (rand : nat → nat) (bounds : list B) :
  ∃ es, buildTree rand bounds = Some (mkINTree (idxs es) (lims es)) ∧
        built bounds es.
Proof.
  unfold buildTree. rewrite build_loop. simpl.
  destruct (sort_spec rand (initial_entries bounds) 0)
    as (k & es1 & -> & Hperm & Hsorted). simpl.
  destruct (augment_spec es1) as (es2 & -> & Hb & Haug). simpl.
  exists es2. split.
  { by rewrite (idxs_bounds_of es1), <- Hb, <- idxs_bounds_of. }
  split; [|by eapply le_lower_bounds_of|done].
  by rewrite Hb, Hperm.
Qed.

Lemma centerIdx_spec l r : centerIdx l r = ((l + r + 1) / 2)%Z.
Proof.
  unfold centerIdx, Qceiling, Qfloor. simpl.
  rewrite Z.mul_1_r. Z.div_mod_to_equations. lia.
Qed.

(** ** Including *)

Lemma matching_app val es1 es2 :
  matching val (es1 ++ es2) = matching val es1 ++ matching val es2.
Proof. apply filter_app. Qed.

Lemma matching_none val (es : list entry) :
  Forall (λ e, matchb val e = false) es → matching val es = [].
Proof.
  induction 1 as [|e es He _ IH]; [done|].
  unfold matching. rewrite filter_cons_False by congruence. apply IH.
Qed.

Lemma Including_loop_mono t val fuel : ∀ fuel' st out,
  Including_loop fuel t val st = Some out → fuel ≤ fuel' →
  Including_loop fuel' t val st = Some out.
Proof.
  induction fuel as [|fuel IH]; intros fuel' st out Hrun Hle.
  - simpl in Hrun. destruct (idxStock st) eqn:E; [|done].
    destruct fuel'; simpl; by rewrite E.
  - destruct fuel' as [|fuel']; [lia|]. simpl in *.
    destruct (idxStock st); [done|].
    destruct (Including_iter t val st) as [st'|]; [|done]. simpl in *.
    eapply IH; [done|lia].
Qed.

Lemma Including_loop_S t val fuel r l stock res :
  Including_loop (S fuel) t val (mkQ (r :: l :: stock) res)
  = Including_iter t val (mkQ (r :: l :: stock) res)
      ≫= Including_loop fuel t val.
Proof. done. Qed.

Lemma traverses_if t val l r cost ms (b : bool) :
  traverses t val l r cost ms →
  ∀ stock res fuel out,
    Including_loop fuel t val
      (mkQ stock (res ++ idxs (if b then ms else []))) = Some out →
    Including_loop (cost + fuel) t val
      (mkQ (if b then r :: l :: stock else stock) res) = Some out.
Proof.
  intros Ht stock res fuel out Hout. destruct b; [by apply Ht|].
  rewrite app_nil_r in Hout. eapply Including_loop_mono; [done|lia].
Qed.

Lemma Including_iter_empty t val l r stock res :
  l = (r + 1)%Z →
  Including_iter t val (mkQ (r :: l :: stock) res) = Some (mkQ stock res).
Proof. intros. unfold Including_iter. simpl. by rewrite decide_True. Qed.

Lemma Including_iter_node (es : list entry) val l r stock res i c :
  l ≠ (r + 1)%Z → centerIdx l r = Z.of_nat i → es !! i = Some c →
  let b1 := f64_le val (max_of c) in
  let b2 := f64_le (lower_of c) val in
  let b3 := f64_le val (upper_of c) in
  let stock1 :=
    if b1 then (Z.of_nat i - 1)%Z :: l :: stock else stock in
  Including_iter (mkINTree (idxs es) (lims es)) val (mkQ (r :: l :: stock) res)
  = Some (mkQ (if b2 then r :: (Z.of_nat i + 1)%Z :: stock1 else stock1)
              (if b2 && b3 then res ++ [c.1] else res)).
Proof.
  intros Hne Hc Hi. unfold Including_iter. simpl.
  rewrite decide_False by done. rewrite Hc.
  replace (3 * Z.of_nat i + 2)%Z with (Z.of_nat (3 * i + 2)) by lia.
  replace (3 * Z.of_nat i + 1)%Z with (Z.of_nat (3 * i + 1)) by lia.
  replace (3 * Z.of_nat i)%Z with (Z.of_nat (3 * i)) by lia.
  rewrite !loadZ_nat, lims_lookup0, lims_lookup1, lims_lookup2, Hi.
  unfold idxs. rewrite list_lookup_fmap, Hi. simpl.
  fold (max_of c) (lower_of c) (upper_of c).
  destruct (f64_le (lower_of c) val); [|done].
  by destruct (f64_le val (upper_of c)).
Qed.

Lemma matchb_false_lower val e :
  (val < lower_of e)%Q → matchb val e = false.
Proof.
  intros Hlt. unfold matchb. apply andb_false_iff. left.
  by apply f64_le_false.
Qed.

Lemma matchb_false_upper val e :
  (upper_of e < val)%Q → matchb val e = false.
Proof.
  intros Hlt. unfold matchb. apply andb_false_iff. right.
  by apply f64_le_false.
Qed.

Lemma traverse_sub val es sub :
  Augmented sub → StronglySorted le_lower sub →
  ∀ pre post, es = pre ++ sub ++ post →
  ∃ ms, ms ≡ₚ matching val sub ∧
    traverses (mkINTree (idxs es) (lims es)) val
      (Z.of_nat (length pre)) (Z.of_nat (length pre + length sub) - 1)
      (2 * length sub + 1) ms.
Proof.
  induction 1 as [|esL c esR HlenL Hmax _ IHL _ IHR];
    intros Hsorted pre post Hes.
  { exists []. split; [done|]. intros stock res fuel out Hout.
    rewrite app_nil_r in Hout.
    replace (2 * length (@nil entry) + 1 + fuel) with (S fuel)
      by (simpl; lia).
    rewrite Including_loop_S, Including_iter_empty by (simpl; lia).
    done. }
  apply StronglySorted_app in Hsorted as (Hcross & HsL & HsR).
  apply StronglySorted_cons in HsR as [HcR HsR].
  destruct (IHL HsL pre (c :: esR ++ post)) as (msL & HmsL & HtL).
  { rewrite Hes. by rewrite <- (assoc_L (++)). }
  destruct (IHR HsR (pre ++ esL ++ [c]) post) as (msR & HmsR & HtR).
  { rewrite Hes. rewrite <- !(assoc_L (++)). done. }
  set (i := length pre + length esL).
  set (l := Z.of_nat (length pre)) in *.
  set (r := (Z.of_nat (length pre + length (esL ++ c :: esR)) - 1)%Z).
  rewrite augment_root_half, length_app, length_cons in HlenL.
  assert (Hhalf : length esR ≤ length esL ≤ S (length esR)).
  { pose proof (Nat.div_mod_eq (length esL + S (length esR)) 2).
    pose proof (Nat.mod_upper_bound (length esL + S (length esR)) 2).
    lia. }
  clear HlenL.
  assert (Hcenter : centerIdx l r = Z.of_nat i).
  { rewrite centerIdx_spec. unfold l, r, i. rewrite length_app. simpl.
    Z.div_mod_to_equations. lia. }
  assert (Hi : es !! i = Some c).
  { rewrite Hes. unfold i. rewrite lookup_app_r by lia.
    replace (length pre + length esL - length pre) with (length esL) by lia.
    rewrite <- (assoc_L (++)). simpl. by apply list_lookup_middle. }
  replace (Z.of_nat (length (pre ++ esL ++ [c]))) with (Z.of_nat i + 1)%Z
    in HtR by (rewrite !length_app; simpl; lia).
  replace (Z.of_nat (length (pre ++ esL ++ [c]) + length esR) - 1)%Z with r
    in HtR by (unfold r; rewrite !length_app; simpl; lia).
  replace (Z.of_nat (length pre + length esL) - 1)%Z
    with (Z.of_nat i - 1)%Z in HtL by done.
  set (b1 := f64_le val (max_of c)).
  set (b2 := f64_le (lower_of c) val).
  set (b3 := f64_le val (upper_of c)).
  exists ((if b2 && b3 then [c] else []) ++ (if b2 then msR else [])
          ++ (if b1 then msL else [])).
  split.
  - assert (HR : (if b2 then msR else []) ≡ₚ matching val esR).
    { destruct b2 eqn:E2; [done|]. apply f64_le_false in E2.
      rewrite matching_none; [done|].
      eapply Forall_impl; [exact HcR|]. intros e He.
      apply matchb_false_lower. by eapply Qlt_le_trans. }
    assert (HL : (if b1 then msL else []) ≡ₚ matching val esL).
    { destruct b1 eqn:E1; [done|]. apply f64_le_false in E1.
      rewrite matching_none; [done|].
      pose proof (scan_max_ge (upper_of <$> esL ++ c :: esR)) as Hge.
      rewrite <- Hmax, Forall_fmap, Forall_app in Hge.
      destruct Hge as [Hge _].
      eapply Forall_impl; [exact Hge|]. intros e He. simpl in He.
      apply matchb_false_upper. by eapply Qle_lt_trans. }
    rewrite HR, HL, !matching_app.
    change (matching val (c :: esR)) with (matching val ([c] ++ esR)).
    rewrite matching_app.
    replace (matching val [c]) with (if b2 && b3 then [c] else [])
      by (unfold matching; rewrite filter_cons, filter_nil;
          unfold matchb; fold b2 b3; by destruct (b2 && b3)).
    rewrite (comm (++) (matching val esL)). by rewrite (assoc (++)).
  - intros stock res fuel out Hout.
    replace (2 * length (esL ++ c :: esR) + 1 + fuel)
      with (S (2 * length esR + 1 + (2 * length esL + 1 + fuel)))
      by (rewrite length_app; simpl; lia).
    rewrite Including_loop_S.
    rewrite (Including_iter_node es val l r stock res i c);
      [|unfold l, r; rewrite length_app; simpl; lia|done|done].
    simpl. fold b1 b2 b3.
    apply (traverses_if _ _ _ _ _ _ b2 HtR).
    apply (traverses_if _ _ _ _ _ _ b1 HtL).
    rewrite <- Hout. f_equal. f_equal.
    rewrite !idxs_app, !(assoc_L (++)). f_equal. f_equal.
    destruct (b2 && b3); simpl; by rewrite ?app_nil_r.
Qed.

Lemma Including_spec (es : list entry) val :
  Augmented es → StronglySorted le_lower es →
  ∃ ms, ms ≡ₚ matching val es ∧
        Including (mkINTree (idxs es) (lims es)) val = Some (idxs ms).
Proof.
  intros Haug Hsorted.
  destruct (traverse_sub val es es Haug Hsorted [] [])
    as (ms & Hms & Ht); [by rewrite app_nil_r|].
  exists ms. split; [done|].
  unfold Including, Including_init. simpl indexes. rewrite length_idxs.
  specialize (Ht [] [] 0 (idxs ms) eq_refl).
  replace (2 * length es + 1 + 0) with (2 * length es + 1) in Ht by lia.
  exact Ht.
Qed.

(** ** The reference answer: a linear scan of the caller's collection *)

Lemma elem_of_linear_scan `{Bounds B} val (bounds : list B) : ∀ k p,
  p ∈ linear_scan val k bounds ↔
  ∃ i b, p = Z.of_nat (k + i) ∧ bounds !! i = Some b ∧ contains val b = true.
Proof.
  induction bounds as [|b bounds IH]; intros k p; simpl.
  { rewrite elem_of_nil. split; [done|]. by intros (i & b & _ & ? & _). }
  assert (p ∈ linear_scan val (S k) bounds ↔
          ∃ i b', p = Z.of_nat (k + S i) ∧ bounds !! i = Some b' ∧
                  contains val b' = true) as IH'.
  { rewrite IH. by setoid_rewrite Nat.add_succ_r. }
  destruct (contains val b) eqn:Hb.
  - rewrite elem_of_cons, IH'. split.
    + intros [->|(i & b' & -> & ? & ?)].
      * exists 0, b. by rewrite Nat.add_0_r.
      * by exists (S i), b'.
    + intros ([|i] & b' & -> & Hi & Hc); simpl in Hi.
      * left. by rewrite Nat.add_0_r.
      * right. by exists i, b'.
  - rewrite IH'. split.
    + intros (i & b' & -> & ? & ?). by exists (S i), b'.
    + intros ([|i] & b' & -> & Hi & Hc); simpl in Hi.
      * simplify_eq. congruence.
      * by exists i, b'.
Qed.

Lemma elem_of_brute_force `{Bounds B} (bounds : list B) val p :
  p ∈ brute_force bounds val ↔
  ∃ i b, p = Z.of_nat i ∧ bounds !! i = Some b ∧ contains val b = true.
Proof. apply elem_of_linear_scan. Qed.

Lemma filter_fmap {A C} (f : A → C) (P : C → Prop) `{∀ x, Decision (P x)}
    (l : list A) :
  filter P (f <$> l) = f <$> filter (λ x, P (f x)) l.
Proof.
  induction l as [|x l IH]; [done|].
  rewrite fmap_cons, !filter_cons, IH. by case_decide.
Qed.

Lemma idxs_matching val (es : list entry) :
  idxs (matching val es)
  = (λ b : Z * Q * Q, b.1.1)
      <$> filter (λ b, matchb3 val b = true) (bounds_of <$> es).
Proof.
  rewrite filter_fmap, <- list_fmap_compose. done.
Qed.

Lemma idxs_matching_perm val (es es' : list entry) :
  bounds_of <$> es ≡ₚ bounds_of <$> es' →
  idxs (matching val es) ≡ₚ idxs (matching val es').
Proof. intros Hp. rewrite !idxs_matching. by rewrite Hp. Qed.

Lemma linear_scan_initial `{Bounds B} val (bounds : list B) : ∀ k,
  linear_scan val k bounds
  = idxs (matching val
      (imap (λ i b, (Z.of_nat (k + i), Slot (Limits b).1 (Limits b).2 0%Q))
            bounds)).
Proof.
  induction bounds as [|b bounds IH]; intros k; [done|].
  rewrite imap_cons. unfold matching. rewrite filter_cons.
  rewrite (imap_ext _ (λ i b, (Z.of_nat (S k + i),
                               Slot (Limits b).1 (Limits b).2 0%Q)))
    by (intros; simpl; do 2 f_equal; lia).
  change (matchb val (Z.of_nat (k + 0), Slot (Limits b).1 (Limits b).2 0%Q))
    with (contains val b).
  simpl linear_scan. rewrite IH. unfold matching, idxs.
  destruct (contains val b).
  - rewrite decide_True by done. rewrite fmap_cons. simpl.
    by rewrite Nat.add_0_r.
  - by rewrite decide_False by done.
Qed.

Lemma brute_force_initial `{Bounds B} (bounds : list B) val :
  brute_force bounds val = idxs (matching val (initial_entries bounds)).
Proof. apply linear_scan_initial. Qed.

Lemma idxs_initial_entries `{Bounds B} (bounds : list B) :
  idxs (initial_entries bounds) = Z.of_nat <$> seq 0 (length bounds).
Proof.
  unfold idxs, initial_entries. rewrite fmap_imap.
  apply list_eq. intros i.
  rewrite list_lookup_imap, list_lookup_fmap.
  destruct (decide (i < length bounds)) as [Hi|Hi].
  - destruct (lookup_lt_is_Some_2 bounds i Hi) as [b ->].
    by rewrite lookup_seq_lt.
  - rewrite lookup_ge_None_2 by lia.
    by rewrite lookup_seq_ge by lia.
Qed.

Lemma NoDup_brute_force `{Bounds B} (bounds : list B) val :
  NoDup (brute_force bounds val).
Proof.
  rewrite brute_force_initial.
  apply (sublist_NoDup _ (idxs (initial_entries bounds))).
  - rewrite idxs_initial_entries. apply NoDup_fmap_2; [|apply NoDup_seq].
    intros ???. lia.
  - unfold idxs. apply fmap_sublist. apply sublist_filter.
Qed.

(** ** The query on a built tree *)

Lemma query_correct `{Bounds B} (rand : nat → nat) (bounds : list B) val :
  ∃ t res,
    NewINTree rand bounds = Some t ∧ Including t val = Some res ∧
    indexes t ≡ₚ Z.of_nat <$> seq 0 (length bounds) ∧
    res ≡ₚ brute_force bounds val.
Proof.
  destruct (buildTree_spec rand bounds) as (es & Hbuild & [Hperm Hs Ha]).
  destruct (Including_spec es val Ha Hs) as (ms & Hms & Hq).
  exists (mkINTree (idxs es) (lims es)), (idxs ms).
  split_and!; [done|done| |].
  - simpl. rewrite <- idxs_initial_entries, !idxs_bounds_of. by rewrite Hperm.
  - rewrite brute_force_initial, <- (idxs_matching_perm val es) by done.
    unfold idxs. by rewrite Hms.
Qed.

(** ** Safety of the query loop *)

Lemma loadZ_is_Some {A} (s : list A) (i : Z) :
  (0 ≤ i < Z.of_nat (length s))%Z → is_Some (loadZ s i).
Proof.
  intros Hi. unfold loadZ. rewrite decide_True by lia.
  apply lookup_lt_is_Some_2. lia.
Qed.

Lemma centerIdx_bounds l r :
  (l ≤ r)%Z → (l ≤ centerIdx l r ≤ r)%Z.
Proof. intros. rewrite centerIdx_spec. Z.div_mod_to_equations. lia. Qed.

(** The accesses of one iteration on a non-empty range. *)
Lemma accesses_in_bounds t l r :
  well_formed t →
  (0 ≤ l ∧ r ≤ Z.of_nat (length (indexes t)) - 1 ∧ l ≤ r + 1)%Z →
  l ≠ (r + 1)%Z →
  let c := centerIdx l r in
  (0 ≤ c < Z.of_nat (length (indexes t)))%Z ∧
  is_Some (loadZ (limits t) (3 * c)) ∧
  is_Some (loadZ (limits t) (3 * c + 1)) ∧
  is_Some (loadZ (limits t) (3 * c + 2)) ∧
  is_Some (loadZ (indexes t) c).
Proof.
  intros Hwf Hrange Hne c.
  pose proof (centerIdx_bounds l r ltac:(lia)) as Hc. fold c in Hc.
  unfold well_formed in Hwf.
  split_and!; try lia; apply loadZ_is_Some; lia.
Qed.

Lemma Including_iter_safe t val st :
  well_formed t →
  stock_ok (Z.of_nat (length (indexes t))) (idxStock st) →
  idxStock st ≠ [] →
  ∃ st', Including_iter t val st = Some st' ∧
         stock_ok (Z.of_nat (length (indexes t))) (idxStock st').
Proof.
  intros Hwf Hok Hne. unfold Including_iter.
  destruct (idxStock st) as [|r [|l stock]]; try done.
  destruct Hok as [Hrange Hok].
  destruct (decide (l = (r + 1)%Z)) as [Heq|Hneq]; [by eexists|].
  destruct (accesses_in_bounds t l r Hwf Hrange Hneq)
    as (Hc & [x0 H0] & [x1 H1] & [x2 H2] & [p Hp]).
  pose proof (centerIdx_bounds l r ltac:(lia)) as Hlr.
  rewrite H0, H1, H2, Hp. simpl.
  assert (Hs1 : stock_ok (Z.of_nat (length (indexes t)))
    (if f64_le val x2 then (centerIdx l r - 1)%Z :: l :: stock else stock)).
  { destruct (f64_le val x2); [|done]. split; [lia|done]. }
  destruct (f64_le x0 val); [|by eexists].
  destruct (f64_le val x1); (eexists; split; [done|]); simpl;
    (split; [lia|done]).
Qed.

Lemma reachable_stock_ok t val st :
  well_formed t → reachable t val st →
  stock_ok (Z.of_nat (length (indexes t))) (idxStock st).
Proof.
  intros Hwf. induction 1 as [|st st' _ IH Hne Hiter].
  - simpl. split; [lia|done].
  - destruct (Including_iter_safe t val st Hwf IH Hne) as (st2 & E & Hok).
    by simplify_eq.
Qed.

Lemma built_well_formed (es : list entry) :
  well_formed (mkINTree (idxs es) (lims es)).
Proof. unfold well_formed. simpl. by rewrite length_lims, length_idxs. Qed.

(** ** Facts about a built tree *)

Lemma sorted_lookup (es : list entry) i j a b :
  StronglySorted le_lower es → i ≤ j →
  es !! i = Some a → es !! j = Some b → le_lower a b.
Proof.
  intros Hs Hij Ha Hb. destruct (decide (i = j)) as [->|Hne].
  { simplify_eq. apply Qle_refl. }
  rewrite <- (take_drop j es) in Hs.
  eapply StronglySorted_app_1_elem_of; [exact Hs| |].
  - apply (list_elem_of_lookup_2 _ i). rewrite lookup_take_lt by lia. done.
  - apply (list_elem_of_lookup_2 _ 0). rewrite lookup_drop.
    by rewrite Nat.add_0_r.
Qed.

(** Every slot of a built tree holds an original position together with
    the limits found there in the caller's collection. *)
Lemma built_slot `{Bounds B} (bounds : list B) (es : list entry) i e :
  built bounds es → es !! i = Some e →
  ∃ k b, e.1 = Z.of_nat k ∧ bounds !! k = Some b ∧
         lower_of e = (Limits b).1 ∧ upper_of e = (Limits b).2.
Proof.
  intros [Hperm _ _] He.
  assert (bounds_of e ∈ bounds_of <$> initial_entries bounds) as Hin.
  { rewrite <- Hperm. apply list_elem_of_fmap_2.
    by apply (list_elem_of_lookup_2 _ i). }
  apply list_elem_of_fmap in Hin as (e0 & Heq & Hin0).
  apply list_elem_of_lookup in Hin0 as [k Hk].
  unfold initial_entries in Hk. rewrite list_lookup_imap in Hk.
  destruct (bounds !! k) as [b|] eqn:Hb; [|done]. simpl in Hk.
  exists k, b. unfold bounds_of, lower_of, upper_of in *.
  destruct e as [p s], e0 as [p0 s0]. simpl in *. by simplify_eq.
Qed.

Lemma length_built `{Bounds B} (bounds : list B) (es : list entry) :
  built bounds es → length es = length bounds.
Proof.
  intros [Hperm _ _]. apply Permutation_length in Hperm.
  by rewrite !length_fmap, length_initial_entries in Hperm.
Qed.

Lemma idxs_built `{Bounds B} (bounds : list B) (es : list entry) :
  built bounds es → idxs es ≡ₚ Z.of_nat <$> seq 0 (length bounds).
Proof.
  intros [Hperm _ _].
  rewrite <- idxs_initial_entries, !idxs_bounds_of. by rewrite Hperm.
Qed.

Lemma elem_of_positions (n : nat) (p : Z) :
  p ∈ Z.of_nat <$> seq 0 n ↔ (0 ≤ p < Z.of_nat n)%Z.
Proof.
  rewrite list_elem_of_fmap. setoid_rewrite elem_of_seq. split.
  - intros (i & -> & Hi). lia.
  - intros Hp. exists (Z.to_nat p). lia.
Qed.

Lemma NoDup_positions (n : nat) : NoDup (Z.of_nat <$> seq 0 n).
Proof. apply NoDup_fmap_2; [|apply NoDup_seq]. intros ???. lia. Qed.

Lemma contains_spec `{Bounds B} val (b : B) :
  contains val b = true ↔ ((Limits b).1 <= val)%Q ∧ (val <= (Limits b).2)%Q.
Proof. unfold contains. by rewrite andb_true_iff, !f64_le_spec. Qed.

(** The build and the query, with the slots of the built tree in view. *)
Lemma build_and_query `{Bounds B} (rand : nat → nat) (bounds : list B) val :
  ∃ es res,
    NewINTree rand bounds = Some (mkINTree (idxs es) (lims es)) ∧
    built bounds es ∧
    Including (mkINTree (idxs es) (lims es)) val = Some res ∧
    res ≡ₚ brute_force bounds val.
Proof.
  destruct (buildTree_spec rand bounds) as (es & Hbuild & Hbuilt).
  destruct (Including_spec es val (built_augmented _ _ Hbuilt)
              (built_sorted _ _ Hbuilt)) as (ms & Hms & Hq).
  exists es, (idxs ms). split_and!; [done|done|done|].
  rewrite brute_force_initial,
    <- (idxs_matching_perm val es) by apply Hbuilt.
  unfold idxs. by rewrite Hms.
Qed.

(** ** The scan of [augment] on negative upper limits *)

Lemma scan_max_negative (us : list float64) :
  Forall (λ u, (u < 0)%Q) us → scan_max us = 0%Q.
Proof.
  unfold scan_max. induction 1 as [|u us Hu _ IH]; [done|]. simpl.
  unfold f64_gt. replace (f64_lt 0 u) with false; [done|].
  symmetry. apply f64_lt_false. by apply Qlt_le_weak.
Qed.

Lemma Augmented_negative (es : list entry) :
  Augmented es → Forall (λ e, (upper_of e < 0)%Q) es →
  Forall (λ e, max_of e = 0%Q) es.
Proof.
  induction 1 as [|esL c esR _ Hmax _ IHL _ IHR]; intros Hneg; [done|].
  rewrite scan_max_negative in Hmax by (by rewrite Forall_fmap).
  apply Forall_app in Hneg as [HL HR]. apply Forall_cons in HR as [_ HR].
  apply Forall_app. split; [by apply IHL|].
  apply Forall_cons. split; [done|by apply IHR].
Qed.

(** On a collection whose upper limits are all negative, every slot of
    the built tree holds [0] as its augmentation. *)
Lemma subtreeMax_zero_on_negative_uppers `{Bounds B} (rand : nat → nat)
    (bounds : list B) :
  Forall (λ b, ((Limits b).2 < 0)%Q) bounds →
  ∃ t,
    NewINTree rand bounds = Some t ∧
    ∀ i, i < length bounds → limits t !! (3 * i + 2) = Some 0%Q.
Proof.
  intros Hneg.
  destruct (buildTree_spec rand bounds) as (es & Hbuild & Hbuilt).
  exists (mkINTree (idxs es) (lims es)). split; [done|].
  intros i Hi. simpl. rewrite lims_lookup2.
  destruct (lookup_lt_is_Some_2 es i) as [e He];
    [by rewrite (length_built bounds)|].
  rewrite He. simpl. f_equal.
  assert (Forall (λ e, max_of e = 0%Q) es) as Hzero.
  { apply Augmented_negative; [apply Hbuilt|].
    apply Forall_lookup_2. intros j e' He'.
    destruct (built_slot bounds es j e' Hbuilt He')
      as (k & b & _ & Hb & _ & ->).
    rewrite Forall_lookup in Hneg. by apply (Hneg k). }
  rewrite Forall_lookup in Hzero. by apply (Hzero i).
Qed.

(** ** The test suite

    The cases of [Test_Tree] under the oracle [test_rand]. *)

Example Case_Example :
  length <$> matches case_example 4.3%Q = Some 5 ∧
  merge_sort Z.le <$> matches case_example 4.3%Q = Some [0; 2; 5; 8; 10]%Z.
Proof. split; vm_compute; reflexivity. Qed.

Example Case_Border_nil_bounds : matches [] 4.3%Q = Some [].
Proof. reflexivity. Qed.

Example Case_Border_single_interval :
  length <$> matches [mkTB 4 6] 4.3%Q = Some 1 ∧
  length <$> matches [mkTB 4 6] 7%Q = Some 0.
Proof. split; vm_compute; reflexivity. Qed.

Example Case_Border_repeated_interval :
  length <$> matches [mkTB 4 6; mkTB 4 6] 4.3%Q = Some 2 ∧
  length <$> matches [mkTB 4 6; mkTB 4 6] 7%Q = Some 0.
Proof. split; vm_compute; reflexivity. Qed.

Example Case_Border_overlap_at_boundary :
  length <$> matches [mkTB 4 6; mkTB 6 9; mkTB 9 11] 6%Q = Some 2 ∧
  length <$> matches [mkTB 4 6; mkTB 6 9; mkTB 9 11] 9%Q = Some 2.
Proof. split; vm_compute; reflexivity. Qed.

Example Case_Border_fine_grained :
  let bounds := [mkTB 3.43567981e-21 3.43567984e-21;
                 mkTB 3.43567987e-21 3.43567990e-21]%Q in
  length <$> matches bounds 3.43567985e-21%Q = Some 0 ∧
  length <$> matches bounds 3.43567987e-21%Q = Some 1 ∧
  length <$> matches bounds 3.43567988e-21%Q = Some 1.
Proof. split_and!; vm_compute; reflexivity. Qed.

(** * Main results *)

(** C1: for every collection, every sequence of pivot choices and every
    query point, the build succeeds and [Including] returns, as a set,
    exactly the original positions [i] with [lower(i) <= val <= upper(i)]
    that a linear scan of the input finds; an empty collection gives an
    empty result. *)
Theorem Including_containment_correct `{Bounds B} (rand : nat → nat)
    (bounds : list B) (val : float64) :
  ∃ t res,
    NewINTree rand bounds = Some t ∧ Including t val = Some res ∧
    (∀ p, p ∈ res ↔ p ∈ brute_force bounds val) ∧
    (∀ p, p ∈ res ↔
       ∃ i b, p = Z.of_nat i ∧ bounds !! i = Some b ∧
              ((Limits b).1 <= val)%Q ∧ (val <= (Limits b).2)%Q) ∧
    (length bounds = 0 → res = []).
Proof.
  destruct (build_and_query rand bounds val)
    as (es & res & Hbuild & _ & Hq & Hperm).
  exists (mkINTree (idxs es) (lims es)), res.
  split_and!; [done|done| | |].
  - intros p. by rewrite Hperm.
  - intros p. rewrite Hperm, elem_of_brute_force.
    by setoid_rewrite contains_spec.
  - intros Hn. destruct bounds; [|done].
    by apply Permutation_nil_r in Hperm.
Qed.

(** C2: on the single interval [[-2, -1]] the augmentation stored for
    slot 0 is [0], while the only upper bound in the subtree of slot 0 is
    [-1]: the scan in [augment] starts from [0.0], so the stored value is
    the maximum of the subtree only when that maximum is not negative. *)
Theorem subtreeMax_negative_uppers (rand : nat → nat) :
  ∃ t,
    NewINTree rand [mkTB (-2) (-1)] = Some t ∧
    loadZ (limits t) (3 * 0 + 1) = Some (-1)%Q ∧
    loadZ (limits t) (3 * 0 + 2) = Some 0%Q ∧
    ¬ (0 == -1)%Q.
Proof. eexists. split_and!; [reflexivity|reflexivity|reflexivity|done]. Qed.

(** C3: on the sorted one-slot array holding [[-2, -1]] the source's
    method stores [0] and the method that combines the maxima of the
    children stores [-1]. *)
Theorem augment_differs_from_combined :
  augment [(-2)%Q; (-1)%Q; 0%Q] [0%Z] = Some [(-2)%Q; (-1)%Q; 0%Q] ∧
  augment_combined [(-2)%Q; (-1)%Q; 0%Q] [0%Z]
    = Some [(-2)%Q; (-1)%Q; (-1)%Q] ∧
  ¬ (0 == -1)%Q.
Proof. split_and!; [reflexivity|reflexivity|done]. Qed.


(** C6: in every built index [indexes] is a bijection on [[0, n)], slot
    [i] carries the limits of the interval at position [indexes[i]] of the
    caller's collection, and every position [Including] returns lies in
    [[0, n)] and names an interval that passes the containment test. *)
Theorem permutation_integrity `{Bounds B} (rand : nat → nat)
    (bounds : list B) (val : float64) :
  ∃ t res,
    NewINTree rand bounds = Some t ∧ Including t val = Some res ∧
    indexes t ≡ₚ Z.of_nat <$> seq 0 (length bounds) ∧
    NoDup (indexes t) ∧
    (∀ p, p ∈ indexes t ↔ (0 ≤ p < Z.of_nat (length bounds))%Z) ∧
    (∀ i p, indexes t !! i = Some p →
       ∃ b, bounds !! Z.to_nat p = Some b ∧
            limits t !! (3 * i) = Some (Limits b).1 ∧
            limits t !! (3 * i + 1) = Some (Limits b).2) ∧
    (∀ p, p ∈ res →
       (0 ≤ p < Z.of_nat (length bounds))%Z ∧
       ∃ b, bounds !! Z.to_nat p = Some b ∧
            ((Limits b).1 <= val)%Q ∧ (val <= (Limits b).2)%Q).
Proof.
  destruct (build_and_query rand bounds val)
    as (es & res & Hbuild & Hbuilt & Hq & Hperm).
  pose proof (idxs_built bounds es Hbuilt) as Hix.
  exists (mkINTree (idxs es) (lims es)), res.
  split_and!; [done|done|done| | | |]; simpl.
  - rewrite Hix. apply NoDup_positions.
  - intros p. rewrite Hix. apply elem_of_positions.
  - intros i p Hp. unfold idxs in Hp. rewrite list_lookup_fmap in Hp.
    destruct (es !! i) as [e|] eqn:He; [|done]. simpl in Hp.
    destruct (built_slot bounds es i e Hbuilt He)
      as (k & b & Hk & Hb & Hlo & Hup).
    exists b. rewrite lims_lookup0, lims_lookup1, He. simpl.
    fold (lower_of e) (upper_of e). rewrite Hlo, Hup.
    split_and!; [|done|done]. simplify_eq. by rewrite Hk, Nat2Z.id.
  - intros p Hp. rewrite Hperm in Hp.
    apply elem_of_brute_force in Hp as (i & b & -> & Hb & Hc).
    apply contains_spec in Hc. apply lookup_lt_Some in Hb as Hi.
    split; [lia|]. exists b. by rewrite Nat2Z.id.
Qed.

(** C7: the build reports no error on any input, and the position of an
    interval with [lower > upper] is never returned by [Including]. *)
Theorem malformed_never_matches `{Bounds B} (rand : nat → nat)
    (bounds : list B) (val : float64) (i : nat) (b : B) :
  bounds !! i = Some b → ((Limits b).2 < (Limits b).1)%Q →
  ∃ t res,
    NewINTree rand bounds = Some t ∧ Including t val = Some res ∧
    Z.of_nat i ∉ res.
Proof.
  intros Hb Hbad.
  destruct (build_and_query rand bounds val)
    as (es & res & Hbuild & _ & Hq & Hperm).
  exists (mkINTree (idxs es) (lims es)), res.
  split_and!; [done|done|].
  rewrite Hperm, elem_of_brute_force.
  intros (j & b' & Hj & Hb' & Hc).
  assert (j = i) as -> by lia. simplify_eq.
  apply contains_spec in Hc as [H1 H2].
  apply (Qlt_irrefl (Limits b).1).
  eapply Qle_lt_trans; [|exact Hbad]. by eapply Qle_trans.
Qed.

Lemma malformed_never_matches_witness :
  [mkTB 4 6; mkTB 5 3] !! 1 = Some (mkTB 5 3) ∧
  ((Limits (mkTB 5 3)).2 < (Limits (mkTB 5 3)).1)%Q ∧
  ∃ t res,
    NewINTree (λ _, 0) [mkTB 4 6; mkTB 5 3] = Some t ∧
    Including t 4%Q = Some res ∧ Z.of_nat 1 ∉ res.
Proof.
  split; [reflexivity|]. split; [vm_compute; reflexivity|].
  apply (malformed_never_matches (λ _, 0) [mkTB 4 6; mkTB 5 3] 4%Q 1
           (mkTB 5 3)); [reflexivity|vm_compute; reflexivity].
Defined.

(** C8: two collections of [ValuedBounds] with the same limits, whatever
    their [Value()] results, give with the same pivot choices the same
    index, and so the same answer to every query. *)
Theorem NewINTreeV_ignores_Value {B1 V1 B2 V2 : Type}
    `{!ValuedBounds B1 V1} `{!ValuedBounds B2 V2} (rand : nat → nat)
    (bounds1 : list B1) (bounds2 : list B2) :
  Limits <$> bounds1 = Limits <$> bounds2 →
  NewINTreeV rand bounds1 = NewINTreeV rand bounds2 ∧
  ∀ val,
    (t ← NewINTreeV rand bounds1; Including t val)
    = (t ← NewINTreeV rand bounds2; Including t val).
Proof.
  intros Hlim.
  assert (NewINTreeV rand bounds1 = NewINTreeV rand bounds2) as Heq.
  { change (buildTree rand bounds1 = buildTree rand bounds2).
    unfold buildTree. rewrite !build_loop.
    assert (initial_entries bounds1 = initial_entries bounds2) as ->; [|done].
    unfold initial_entries.
    transitivity (imap (λ i (lu : Q * Q), (Z.of_nat i, Slot lu.1 lu.2 0%Q))
                       (Limits <$> bounds1)).
    - by rewrite imap_fmap.
    - rewrite Hlim. by rewrite imap_fmap. }
  split; [done|]. intros val. by rewrite Heq.
Qed.

Lemma NewINTreeV_ignores_Value_witness :
  Limits <$> [mkVTB 4 6 1; mkVTB 6 9 2; mkVTB 1 3 3]
    = Limits <$> [mkVTB 4 6 70; mkVTB 6 9 (-5); mkVTB 1 3 3] ∧
  NewINTreeV (λ k, k + 2) [mkVTB 4 6 1; mkVTB 6 9 2; mkVTB 1 3 3]
    = NewINTreeV (λ k, k + 2) [mkVTB 4 6 70; mkVTB 6 9 (-5); mkVTB 1 3 3].
Proof.
  split; [reflexivity|].
  apply (NewINTreeV_ignores_Value (λ k, k + 2)
           [mkVTB 4 6 1; mkVTB 6 9 2; mkVTB 1 3 3]
           [mkVTB 4 6 70; mkVTB 6 9 (-5); mkVTB 1 3 3]).
  reflexivity.
Defined.

(** C9: the slice [Including] returns on a built index has no duplicate
    entries. *)
Theorem Including_no_duplicates `{Bounds B} (rand : nat → nat)
    (bounds : list B) (val : float64) :
  ∃ t res,
    NewINTree rand bounds = Some t ∧ Including t val = Some res ∧ NoDup res.
Proof.
  destruct (build_and_query rand bounds val)
    as (es & res & Hbuild & _ & Hq & Hperm).
  exists (mkINTree (idxs es) (lims es)), res.
  split_and!; [done|done|]. rewrite Hperm. apply NoDup_brute_force.
Qed.

(** C10: on every built index, the empty one included, [Including] runs to
    its end without a panic: every range on the stack at the head of the
    loop satisfies [0 <= l], [r <= n - 1] and [l <= r + 1], a range that
    passes the guard [l == r + 1] has its centre in [[0, n)], the four
    accesses at the centre are in bounds, every iteration succeeds, and
    the loop ends: [2 * n + 1] iterations or any larger budget give the
    same result. *)
Theorem Including_total_in_bounds `{Bounds B} (rand : nat → nat)
    (bounds : list B) (val : float64) :
  ∃ t,
    NewINTree rand bounds = Some t ∧
    length (indexes t) = length bounds ∧
    idxStock (Including_init t) = [(Z.of_nat (length bounds) - 1)%Z; 0%Z] ∧
    (∀ st, reachable t val st →
       stock_ok (Z.of_nat (length bounds)) (idxStock st)) ∧
    (∀ st r l stock, reachable t val st →
       idxStock st = r :: l :: stock → l ≠ (r + 1)%Z →
       let c := centerIdx l r in
       (0 ≤ c < Z.of_nat (length bounds))%Z ∧
       is_Some (loadZ (limits t) (3 * c)) ∧
       is_Some (loadZ (limits t) (3 * c + 1)) ∧
       is_Some (loadZ (limits t) (3 * c + 2)) ∧
       is_Some (loadZ (indexes t) c)) ∧
    (∀ st, reachable t val st → idxStock st ≠ [] →
       is_Some (Including_iter t val st)) ∧
    ∃ res,
      Including t val = Some res ∧
      ∀ fuel, 2 * length bounds + 1 ≤ fuel →
        Including_loop fuel t val (Including_init t) = Some res.
Proof.
  destruct (build_and_query rand bounds val)
    as (es & res & Hbuild & Hbuilt & Hq & _).
  set (t := mkINTree (idxs es) (lims es)) in *.
  assert (Hwf : well_formed t) by apply built_well_formed.
  assert (Hn : length (indexes t) = length bounds).
  { simpl. by rewrite length_idxs, (length_built bounds). }
  exists t. split_and!; [done|done| | | | |].
  - simpl. by rewrite length_idxs, (length_built bounds).
  - intros st Hst. rewrite <- Hn. by apply (reachable_stock_ok t val).
  - intros st r l stock Hst Hstock Hne.
    pose proof (reachable_stock_ok t val st Hwf Hst) as Hok.
    rewrite Hstock in Hok. destruct Hok as [Hrange _].
    rewrite <- Hn. by apply accesses_in_bounds.
  - intros st Hst Hne.
    pose proof (reachable_stock_ok t val st Hwf Hst) as Hok.
    destruct (Including_iter_safe t val st Hwf Hok Hne) as (st' & -> & _).
    by eexists.
  - exists res. split; [done|]. intros fuel Hfuel.
    eapply Including_loop_mono; [exact Hq|]. rewrite Hn. done.
Qed.

(** * Further properties *)

(** ** Reading two slices as slots *)

Lemma unflat_flat ss : unflat (flat ss) = ss.
Proof. induction ss as [|[a b c] ss IH]; simpl; by rewrite ?IH. Qed.

Lemma flat_unflat n : ∀ lim, length lim = 3 * n → flat (unflat lim) = lim.
Proof.
  induction n as [|n IH]; intros lim Hlen.
  { by destruct lim. }
  destruct lim as [|a [|b [|c lim]]]; simpl in Hlen; try lia.
  simpl. rewrite IH by lia. done.
Qed.

Lemma length_unflat n : ∀ lim, length lim = 3 * n → length (unflat lim) = n.
Proof.
  induction n as [|n IH]; intros lim Hlen.
  { by destruct lim. }
  destruct lim as [|a [|b [|c lim]]]; simpl in Hlen; try lia.
  simpl. rewrite IH by lia. done.
Qed.

Lemma slots_of_lims_idxs (es : list entry) : slots_of (lims es) (idxs es) = es.
Proof.
  unfold slots_of, lims, idxs. rewrite unflat_flat. apply zip_fst_snd.
Qed.

Lemma slots_of_repr lim ix :
  length lim = 3 * length ix →
  lim = lims (slots_of lim ix) ∧ ix = idxs (slots_of lim ix).
Proof.
  intros Hlen. pose proof (length_unflat _ _ Hlen) as Hu.
  unfold slots_of, lims, idxs. split.
  - rewrite snd_zip by lia. symmetry. by eapply flat_unflat.
  - rewrite fst_zip by lia. done.
Qed.

Lemma length_slots_of lim ix :
  length lim = 3 * length ix → length (slots_of lim ix) = length ix.
Proof.
  intros Hlen. destruct (slots_of_repr lim ix Hlen) as [_ Hix].
  rewrite Hix at 2. by rewrite length_idxs.
Qed.

(** ** sort on any pair of slices *)

(** X1: on any pair of slices with three floats per index, [sort] returns
    without a panic, whatever the pivots; it rearranges whole slots (the
    index, the two limits and the third float of a slot stay together),
    keeps both lengths, and leaves the lower limits in non-decreasing
    order. *)
Theorem sort_permutes_slots (rand : nat → nat) (k : nat)
    (lim : list float64) (ix : list Z) :
  length lim = 3 * length ix →
  ∃ k' lim' ix',
    sort rand k lim ix = Some (k', lim', ix') ∧
    length lim' = length lim ∧ length ix' = length ix ∧
    slots_of lim' ix' ≡ₚ slots_of lim ix ∧
    ∀ i j a b, i ≤ j →
      lim' !! (3 * i) = Some a → lim' !! (3 * j) = Some b → (a <= b)%Q.
Proof.
  intros Hlen. destruct (slots_of_repr lim ix Hlen) as [Hlim Hix].
  destruct (sort_spec rand (slots_of lim ix) k)
    as (k' & es' & Hsort & Hperm & Hsorted).
  rewrite <- Hlim, <- Hix in Hsort.
  exists k', (lims es'), (idxs es'). split_and!; [done| | | |].
  - rewrite length_lims, Hperm, length_slots_of by done. lia.
  - by rewrite length_idxs, Hperm, length_slots_of.
  - by rewrite slots_of_lims_idxs.
  - intros i j a b Hij Ha Hb. rewrite lims_lookup0 in Ha, Hb.
    destruct (es' !! i) as [ei|] eqn:Hi; [|done].
    destruct (es' !! j) as [ej|] eqn:Hj; [|done].
    simpl in Ha, Hb. simplify_eq.
    by apply (sorted_lookup es' i j ei ej).
Qed.

Lemma sort_permutes_slots_witness :
  length [5; 1; 9; 2; 8; 7; 2; 3; 4]%Q = 3 * length [10; 20; 30]%Z ∧
  ∃ k' lim' ix',
    sort (λ k, k + 1) 0 [5; 1; 9; 2; 8; 7; 2; 3; 4]%Q [10; 20; 30]%Z
      = Some (k', lim', ix') ∧
    slots_of lim' ix'
      ≡ₚ slots_of [5; 1; 9; 2; 8; 7; 2; 3; 4]%Q [10; 20; 30]%Z.
Proof.
  split; [reflexivity|].
  destruct (sort_permutes_slots (λ k, k + 1) 0
              [5; 1; 9; 2; 8; 7; 2; 3; 4]%Q [10; 20; 30]%Z eq_refl)
    as (k' & lim' & ix' & Hs & _ & _ & Hp & _).
  by exists k', lim', ix'.
Defined.

(** ** augment on any pair of slices *)

Lemma upper_of_limits_of (es : list entry) :
  upper_of <$> es = snd <$> (limits_of <$> es).
Proof. by rewrite <- list_fmap_compose. Qed.

Lemma limits_of_bounds_of (es : list entry) :
  limits_of <$> es
  = (λ b : Z * float64 * float64, (b.1.2, b.2)) <$> (bounds_of <$> es).
Proof. by rewrite <- list_fmap_compose. Qed.

(** The augmentation is determined by the limits. *)
Lemma Augmented_unique (es1 es2 : list entry) :
  Augmented es1 → Augmented es2 →
  limits_of <$> es1 = limits_of <$> es2 → es1.*2 = es2.*2.
Proof.
  intros H1. revert es2.
  induction H1 as [|esL c esR HlenL Hmax _ IHL _ IHR]; intros es2 H2 Hb.
  { symmetry in Hb. apply fmap_nil_inv in Hb. by subst. }
  destruct H2 as [|esL2 c2 esR2 HlenL2 Hmax2 HL2 HR2].
  { apply fmap_nil_inv in Hb. by destruct esL. }
  assert (length (esL ++ c :: esR) = length (esL2 ++ c2 :: esR2)) as Hlen.
  { by rewrite <- (length_fmap limits_of), Hb, length_fmap. }
  rewrite upper_of_limits_of, Hb, <- upper_of_limits_of, <- Hmax2 in Hmax.
  rewrite !fmap_app, !fmap_cons in Hb.
  apply app_inj_1 in Hb as [HbL Hb];
    [|rewrite !length_fmap; congruence].
  pose proof (f_equal head Hb) as Hc. pose proof (f_equal tail Hb) as HbR.
  simpl in Hc, HbR.
  rewrite !fmap_app, !fmap_cons, (IHL esL2), (IHR esR2) by done.
  do 2 f_equal.
  destruct c as [p [lo up mx]], c2 as [p2 [lo2 up2 mx2]].
  unfold limits_of, lower_of, upper_of, max_of in *. simpl in *.
  by simplify_eq.
Qed.

Lemma limits_of_agree (es1 es2 : list entry) :
  length es1 = length es2 →
  (∀ i, lims es1 !! (3 * i) = lims es2 !! (3 * i) ∧
        lims es1 !! (3 * i + 1) = lims es2 !! (3 * i + 1)) →
  limits_of <$> es1 = limits_of <$> es2.
Proof.
  intros Hlen Hagree. apply list_eq. intros i.
  rewrite !list_lookup_fmap. destruct (Hagree i) as [H0 H1].
  rewrite !lims_lookup0 in H0. rewrite !lims_lookup1 in H1.
  destruct (es1 !! i) as [e1|] eqn:E1, (es2 !! i) as [e2|] eqn:E2;
    simpl in *; try done.
  unfold limits_of, lower_of, upper_of. congruence.
Qed.

(** X2: on any pair of slices with three floats per index, [augment]
    returns without a panic, keeps the length and every lower and upper
    limit, and its result depends only on the limits: the third floats
    found on entry and the contents of [indexes] play no part, so a second
    run changes nothing. *)
Theorem augment_depends_on_limits (lim : list float64) (ix : list Z) :
  length lim = 3 * length ix →
  ∃ lim',
    augment lim ix = Some lim' ∧
    length lim' = length lim ∧
    (∀ i, lim' !! (3 * i) = lim !! (3 * i) ∧
          lim' !! (3 * i + 1) = lim !! (3 * i + 1)) ∧
    (∀ lim2 ix2,
       length lim2 = length lim → length ix2 = length ix →
       (∀ i, lim2 !! (3 * i) = lim !! (3 * i) ∧
             lim2 !! (3 * i + 1) = lim !! (3 * i + 1)) →
       augment lim2 ix2 = Some lim') ∧
    augment lim' ix = Some lim'.
Proof.
  intros Hlen. destruct (slots_of_repr lim ix Hlen) as [Hlim Hix].
  pose proof (length_slots_of lim ix Hlen) as Hles.
  set (es := slots_of lim ix) in *.
  destruct (augment_spec es) as (es' & Haug & Hb & Ha).
  rewrite <- Hlim, <- Hix in Haug.
  assert (Hlen' : length es' = length es).
  { by rewrite <- (length_fmap bounds_of), Hb, length_fmap. }
  assert (Hkeep : ∀ i, lims es' !! (3 * i) = lim !! (3 * i) ∧
                       lims es' !! (3 * i + 1) = lim !! (3 * i + 1)).
  { intros i. rewrite Hlim, !lims_lookup0, !lims_lookup1.
    assert (bounds_of <$> es' !! i = bounds_of <$> es !! i) as Hi
      by (by rewrite <- !list_lookup_fmap, Hb).
    destruct (es' !! i) as [e'|], (es !! i) as [e|]; simpl in *; try done.
    unfold bounds_of, lower_of, upper_of in Hi. split; congruence. }
  assert (Hsame : ∀ lim2 ix2,
    length lim2 = length lim → length ix2 = length ix →
    (∀ i, lim2 !! (3 * i) = lim !! (3 * i) ∧
          lim2 !! (3 * i + 1) = lim !! (3 * i + 1)) →
    augment lim2 ix2 = Some (lims es')).
  { intros lim2 ix2 Hl2 Hi2 Hagree.
    assert (length lim2 = 3 * length ix2) as Hlen2 by lia.
    destruct (slots_of_repr lim2 ix2 Hlen2) as [Hlim2 Hix2].
    pose proof (length_slots_of lim2 ix2 Hlen2) as Hles2.
    set (es2 := slots_of lim2 ix2) in *.
    destruct (augment_spec es2) as (es2' & Haug2 & Hb2 & Ha2).
    rewrite <- Hlim2, <- Hix2 in Haug2. rewrite Haug2. f_equal.
    unfold lims. f_equal. apply Augmented_unique; [done|done|].
    rewrite !limits_of_bounds_of, Hb, Hb2, <- !limits_of_bounds_of.
    apply limits_of_agree; [lia|].
    intros i. rewrite <- Hlim2, <- Hlim. apply Hagree. }
  exists (lims es'). split_and!; [done| |done|done|].
  - rewrite length_lims. lia.
  - apply Hsame; [rewrite length_lims; lia|done|done].
Qed.

Lemma augment_depends_on_limits_witness :
  length [1; 4; 7; 2; 9; 7; 3; 5; 7]%Q = 3 * length [0; 1; 2]%Z ∧
  ∃ lim',
    augment [1; 4; 7; 2; 9; 7; 3; 5; 7]%Q [0; 1; 2]%Z = Some lim' ∧
    augment lim' [0; 1; 2]%Z = Some lim'.
Proof.
  split; [reflexivity|].
  destruct (augment_depends_on_limits
              [1; 4; 7; 2; 9; 7; 3; 5; 7]%Q [0; 1; 2]%Z eq_refl)
    as (lim' & H1 & _ & _ & _ & H2).
  by exists lim'.
Defined.

Lemma scan_foldl_least (us : list float64) : ∀ m0 m : float64,
  (m0 <= m)%Q → Forall (λ u, (u <= m)%Q) us →
  (foldl (λ m u, if f64_gt u m then u else m) m0 us <= m)%Q.
Proof.
  induction us as [|u us IH]; intros m0 m Hm0 Hus; [done|].
  apply Forall_cons in Hus as [Hu Hus]. simpl. apply IH; [|done].
  by destruct (f64_gt u m0).
Qed.

Lemma scan_max_least (us : list float64) (m : float64) :
  (0 <= m)%Q → Forall (λ u, (u <= m)%Q) us → (scan_max us <= m)%Q.
Proof. apply scan_foldl_least. Qed.

Lemma Augmented_below (es : list entry) : ∀ m : float64,
  Augmented es → (0 <= m)%Q → Forall (λ e, (upper_of e <= m)%Q) es →
  Forall (λ e, (max_of e <= m)%Q) es.
Proof.
  intros m Ha Hm. induction Ha as [|esL c esR _ Hmax _ IHL _ IHR];
    intros Hup; [done|].
  assert (max_of c <= m)%Q as Hc.
  { rewrite Hmax. apply scan_max_least; [done|]. by rewrite Forall_fmap. }
  apply Forall_app in Hup as [HL HR]. apply Forall_cons in HR as [_ HR].
  apply Forall_app. split; [by apply IHL|].
  apply Forall_cons. split; [done|by apply IHR].
Qed.

Lemma Augmented_above (es : list entry) :
  Augmented es →
  Forall (λ e, (upper_of e <= max_of e)%Q ∧ (0 <= max_of e)%Q) es.
Proof.
  induction 1 as [|esL c esR _ Hmax _ IHL _ IHR]; [done|].
  apply Forall_app. split; [done|]. apply Forall_cons. split; [|done].
  rewrite Hmax. split; [|apply scan_max_nonneg].
  pose proof (scan_max_ge (upper_of <$> esL ++ c :: esR)) as Hge.
  rewrite Forall_fmap, Forall_app, Forall_cons in Hge.
  by destruct Hge as (_ & Hc & _).
Qed.

Lemma Augmented_root (es : list entry) :
  Augmented es → es ≠ [] →
  ∃ c, es !! augment_root (length es) = Some c ∧
       max_of c = scan_max (upper_of <$> es).
Proof.
  destruct 1 as [|esL c esR HlenL Hmax _ _]; [done|]. intros _.
  exists c. split; [|done]. rewrite <- HlenL. by apply list_lookup_middle.
Qed.

(** X3: after [augment] on a non-empty pair of slices, the third float of
    every slot is at least the slot's own upper limit and at least [0],
    and the third float of the root slot [len >> 1] is at least the third
    float (and so the upper limit) of every slot. *)
Theorem augment_bounds_uppers (lim : list float64) (ix : list Z) :
  length lim = 3 * length ix → 0 < length ix →
  ∃ lim' root,
    augment lim ix = Some lim' ∧
    lim' !! (3 * augment_root (length ix) + 2) = Some root ∧
    ∀ i up mx,
      lim' !! (3 * i + 1) = Some up → lim' !! (3 * i + 2) = Some mx →
      (up <= mx)%Q ∧ (0 <= mx)%Q ∧ (mx <= root)%Q.
Proof.
  intros Hlen Hpos. destruct (slots_of_repr lim ix Hlen) as [Hlim Hix].
  pose proof (length_slots_of lim ix Hlen) as Hles.
  set (es := slots_of lim ix) in *.
  destruct (augment_spec es) as (es' & Haug & Hb & Ha).
  rewrite <- Hlim, <- Hix in Haug.
  assert (Hlen' : length es' = length ix).
  { by rewrite <- (length_fmap bounds_of), Hb, length_fmap. }
  destruct (Augmented_root es' Ha) as (c & Hc & Hmax).
  { intros ->. simpl in Hlen'. lia. }
  rewrite Hlen' in Hc.
  exists (lims es'), (max_of c). split_and!; [done|by rewrite lims_lookup2, Hc|].
  intros i up mx Hup Hmx. rewrite lims_lookup1 in Hup.
  rewrite lims_lookup2 in Hmx.
  destruct (es' !! i) as [e|] eqn:He; [|done]. simpl in Hup, Hmx.
  simplify_eq. fold (upper_of e) (max_of e).
  pose proof (Augmented_above es' Ha) as Habove.
  rewrite Forall_lookup in Habove. destruct (Habove i e He) as [H1 H2].
  split_and!; [done|done|].
  assert (Forall (λ e, (max_of e <= max_of c)%Q) es') as Hbelow.
  { apply Augmented_below; [done| |].
    - rewrite Hmax. apply scan_max_nonneg.
    - rewrite Hmax. pose proof (scan_max_ge (upper_of <$> es')) as Hge.
      by rewrite Forall_fmap in Hge. }
  rewrite Forall_lookup in Hbelow. by apply (Hbelow i).
Qed.

Lemma augment_bounds_uppers_witness :
  length [1; 4; 0; 2; -9; 0; 3; 5; 0]%Q = 3 * length [0; 1; 2]%Z ∧
  0 < length [0; 1; 2]%Z ∧
  ∃ lim' root,
    augment [1; 4; 0; 2; -9; 0; 3; 5; 0]%Q [0; 1; 2]%Z = Some lim' ∧
    lim' !! (3 * augment_root (length [0; 1; 2]%Z) + 2) = Some root.
Proof.
  split; [reflexivity|]. split; [simpl; lia|].
  destruct (augment_bounds_uppers
              [1; 4; 0; 2; -9; 0; 3; 5; 0]%Q [0; 1; 2]%Z eq_refl
              ltac:(simpl; lia))
    as (lim' & root & H1 & H2 & _).
  by exists lim', root.
Defined.

(** ** Including on any tree *)

Lemma traverse_any val (es : list entry) : ∀ m sub pre post,
  length sub ≤ m → es = pre ++ sub ++ post →
  ∃ ms, ms ⊆+ matching val sub ∧
    traverses (mkINTree (idxs es) (lims es)) val
      (Z.of_nat (length pre)) (Z.of_nat (length pre + length sub) - 1)
      (2 * length sub + 1) ms.
Proof.
  induction m as [|m IH]; intros sub pre post Hm Hes.
  { destruct sub; [|simpl in Hm; lia].
    exists []. split; [done|]. intros stock res fuel out Hout.
    rewrite app_nil_r in Hout.
    replace (2 * length (@nil entry) + 1 + fuel) with (S fuel)
      by (simpl; lia).
    rewrite Including_loop_S, Including_iter_empty by (simpl; lia).
    done. }
  destruct (decide (length sub = 0)) as [Hz|Hnz].
  { apply (IH sub pre post); [lia|done]. }
  set (h := length sub / 2).
  assert (Hh : h < length sub) by (apply Nat.div_lt; lia).
  destruct (lookup_lt_is_Some_2 sub h Hh) as [c Hc].
  pose proof (take_drop_middle sub h c Hc) as Hsplit.
  set (esL := take h sub) in *. set (esR := drop (S h) sub) in *.
  assert (HlenL : length esL = h) by (unfold esL; rewrite length_take; lia).
  assert (HlenR : length esR = length sub - S h)
    by (unfold esR; by rewrite length_drop).
  assert (Hhalf : length esR ≤ length esL ≤ S (length esR)).
  { pose proof (Nat.div_mod_eq (length sub) 2).
    pose proof (Nat.mod_upper_bound (length sub) 2). unfold h in *. lia. }
  clearbody esL esR. subst sub. clear Hc.
  rewrite length_app, length_cons in Hm.
  destruct (IH esL pre (c :: esR ++ post)) as (msL & HmsL & HtL); [lia| |].
  { rewrite Hes. by rewrite <- (assoc_L (++)). }
  destruct (IH esR (pre ++ esL ++ [c]) post) as (msR & HmsR & HtR); [lia| |].
  { rewrite Hes. rewrite <- !(assoc_L (++)). done. }
  set (i := length pre + length esL).
  set (l := Z.of_nat (length pre)) in *.
  set (r := (Z.of_nat (length pre + length (esL ++ c :: esR)) - 1)%Z).
  assert (Hcenter : centerIdx l r = Z.of_nat i).
  { rewrite centerIdx_spec. unfold l, r, i. rewrite length_app. simpl.
    Z.div_mod_to_equations. lia. }
  assert (Hi : es !! i = Some c).
  { rewrite Hes. unfold i. rewrite lookup_app_r by lia.
    replace (length pre + length esL - length pre) with (length esL) by lia.
    rewrite <- (assoc_L (++)). simpl. by apply list_lookup_middle. }
  replace (Z.of_nat (length (pre ++ esL ++ [c]))) with (Z.of_nat i + 1)%Z
    in HtR by (rewrite !length_app; simpl; lia).
  replace (Z.of_nat (length (pre ++ esL ++ [c]) + length esR) - 1)%Z with r
    in HtR by (unfold r; rewrite !length_app; simpl; lia).
  replace (Z.of_nat (length pre + length esL) - 1)%Z
    with (Z.of_nat i - 1)%Z in HtL by done.
  set (b1 := f64_le val (max_of c)).
  set (b2 := f64_le (lower_of c) val).
  set (b3 := f64_le val (upper_of c)).
  exists ((if b2 && b3 then [c] else []) ++ (if b2 then msR else [])
          ++ (if b1 then msL else [])).
  split.
  - assert (HR : (if b2 then msR else []) ⊆+ matching val esR).
    { destruct b2; [done|]. apply submseteq_nil_l. }
    assert (HL : (if b1 then msL else []) ⊆+ matching val esL).
    { destruct b1; [done|]. apply submseteq_nil_l. }
    rewrite !matching_app.
    change (matching val (c :: esR)) with (matching val ([c] ++ esR)).
    rewrite matching_app.
    replace (matching val [c]) with (if b2 && b3 then [c] else [])
      by (unfold matching; rewrite filter_cons, filter_nil;
          unfold matchb; fold b2 b3; by destruct (b2 && b3)).
    rewrite (comm (++) (matching val esL)), <- (assoc (++)).
    apply submseteq_app; [done|]. by apply submseteq_app.
  - intros stock res fuel out Hout.
    replace (2 * length (esL ++ c :: esR) + 1 + fuel)
      with (S (2 * length esR + 1 + (2 * length esL + 1 + fuel)))
      by (rewrite length_app; simpl; lia).
    rewrite Including_loop_S.
    rewrite (Including_iter_node es val l r stock res i c);
      [|unfold l, r; rewrite length_app; simpl; lia|done|done].
    simpl. fold b1 b2 b3.
    apply (traverses_if _ _ _ _ _ _ b2 HtR).
    apply (traverses_if _ _ _ _ _ _ b1 HtL).
    rewrite <- Hout. f_equal. f_equal.
    rewrite !idxs_app, !(assoc_L (++)). f_equal. f_equal.
    destruct (b2 && b3); simpl; by rewrite ?app_nil_r.
Qed.

(** X4: on any tree with three floats per index, sorted and augmented or
    not, [Including] ends without a panic, and what it returns is sound:
    every returned entry is [indexes[c]] of a slot [c] whose limits contain
    [val], no slot is reported twice (the result is no longer than the
    list of slots that contain [val]), and an empty tree gives an empty
    result. *)
Theorem Including_sound_on_any_tree (t : INTree) (val : float64) :
  length (limits t) = 3 * length (indexes t) →
  ∃ res ms,
    Including t val = Some res ∧
    res = ms.*1 ∧
    ms ⊆+ matching val (slots_of (limits t) (indexes t)) ∧
    (∀ p, p ∈ res →
       ∃ c lo up,
         indexes t !! c = Some p ∧
         limits t !! (3 * c) = Some lo ∧ limits t !! (3 * c + 1) = Some up ∧
         (lo <= val)%Q ∧ (val <= up)%Q) ∧
    length res ≤ length (indexes t) ∧
    (length (indexes t) = 0 → res = []).
Proof.
  intros Hwf. destruct t as [ix lim]. simpl in *.
  destruct (slots_of_repr lim ix Hwf) as [Hlim Hix].
  pose proof (length_slots_of lim ix Hwf) as Hles.
  set (es := slots_of lim ix) in *.
  destruct (traverse_any val es (length es) es [] [] ltac:(done))
    as (ms & Hms & Ht); [by rewrite app_nil_r|].
  exists (idxs ms), ms.
  assert (Hsub : ms ⊆+ es).
  { etrans; [exact Hms|]. apply sublist_submseteq, sublist_filter. }
  split_and!; [|done|done| | |].
  - rewrite Hlim, Hix at 1.
    unfold Including, Including_init. simpl indexes. rewrite length_idxs.
    specialize (Ht [] [] 0 (idxs ms) eq_refl).
    replace (2 * length es + 1 + 0) with (2 * length es + 1) in Ht by lia.
    exact Ht.
  - intros p Hp. apply list_elem_of_fmap in Hp as (e & -> & He).
    pose proof (elem_of_submseteq _ _ _ He Hms) as Hin.
    apply list_elem_of_filter in Hin as [Hmatch Hin].
    apply list_elem_of_lookup in Hin as [c Hc].
    exists c, (lower_of e), (upper_of e).
    rewrite Hix at 1. rewrite Hlim at 1. rewrite Hlim at 1.
    unfold idxs. rewrite list_lookup_fmap, lims_lookup0, lims_lookup1, Hc.
    unfold matchb in Hmatch. apply andb_true_iff in Hmatch as [H1 H2].
    apply f64_le_spec in H1, H2. done.
  - unfold idxs. rewrite length_fmap, <- Hles.
    by apply submseteq_length.
  - intros Hz. destruct ms; [done|].
    apply submseteq_length in Hsub. simpl in Hsub. lia.
Qed.

Lemma Including_sound_on_any_tree_witness :
  length (limits (mkINTree [7; 8]%Z [5; 9; 0; 1; 6; 0]%Q))
    = 3 * length (indexes (mkINTree [7; 8]%Z [5; 9; 0; 1; 6; 0]%Q)) ∧
  ∃ res,
    Including (mkINTree [7; 8]%Z [5; 9; 0; 1; 6; 0]%Q) 5.5%Q = Some res ∧
    length res ≤ 2.
Proof.
  split; [reflexivity|].
  destruct (Including_sound_on_any_tree
              (mkINTree [7; 8]%Z [5; 9; 0; 1; 6; 0]%Q) 5.5%Q eq_refl)
    as (res & ms & H1 & _ & _ & _ & H2 & _).
  by exists res.
Defined.

(** ** Including on a sorted tree with large enough third floats *)

#[local] Instance le_lower_dec : RelDecision le_lower.
Proof.
  intros e1 e2. unfold le_lower.
  destruct (Qle_bool (lower_of e1) (lower_of e2)) eqn:E.
  - left. by apply Qle_bool_iff.
  - right. intros H. apply Qle_bool_iff in H. congruence.
Defined.

Lemma traverse_covered val (es : list entry) : ∀ m sub pre post,
  length sub ≤ m → coveredb m sub = true → StronglySorted le_lower sub →
  es = pre ++ sub ++ post →
  ∃ ms, ms ≡ₚ matching val sub ∧
    traverses (mkINTree (idxs es) (lims es)) val
      (Z.of_nat (length pre)) (Z.of_nat (length pre + length sub) - 1)
      (2 * length sub + 1) ms.
Proof.
  induction m as [|m IH]; intros sub pre post Hm Hcov Hsorted Hes.
  { destruct sub; [|simpl in Hm; lia].
    exists []. split; [done|]. intros stock res fuel out Hout.
    rewrite app_nil_r in Hout.
    replace (2 * length (@nil entry) + 1 + fuel) with (S fuel)
      by (simpl; lia).
    rewrite Including_loop_S, Including_iter_empty by (simpl; lia).
    done. }
  destruct sub as [|e0 sub0] eqn:Hsub.
  { exists []. split; [done|]. intros stock res fuel out Hout.
    rewrite app_nil_r in Hout.
    replace (2 * length (@nil entry) + 1 + fuel) with (S fuel)
      by (simpl; lia).
    rewrite Including_loop_S, Including_iter_empty by (simpl; lia).
    done. }
  rewrite <- Hsub in *. assert (Hnz : length sub ≠ 0) by (by subst).
  assert (Hcov' :
    match sub !! augment_root (length sub) with
    | Some c =>
      forallb (λ e, f64_le (upper_of e) (max_of c))
        (take (augment_root (length sub)) sub)
      && coveredb m (take (augment_root (length sub)) sub)
      && coveredb m (drop (S (augment_root (length sub))) sub)
    | None => false
    end = true).
  { rewrite Hsub in Hcov |- *. exact Hcov. }
  clear Hcov Hsub e0 sub0. rewrite augment_root_half in Hcov'.
  set (h := length sub / 2) in *.
  assert (Hh : h < length sub) by (apply Nat.div_lt; lia).
  destruct (lookup_lt_is_Some_2 sub h Hh) as [c Hc].
  rewrite Hc in Hcov'. apply andb_true_iff in Hcov' as [Hcov' HcovR].
  apply andb_true_iff in Hcov' as [Hup HcovL].
  pose proof (take_drop_middle sub h c Hc) as Hsplit.
  set (esL := take h sub) in *. set (esR := drop (S h) sub) in *.
  assert (HlenL : length esL = h) by (unfold esL; rewrite length_take; lia).
  assert (HlenR : length esR = length sub - S h)
    by (unfold esR; by rewrite length_drop).
  assert (Hhalf : length esR ≤ length esL ≤ S (length esR)).
  { pose proof (Nat.div_mod_eq (length sub) 2).
    pose proof (Nat.mod_upper_bound (length sub) 2). unfold h in *. lia. }
  clearbody esL esR. subst sub. clear Hc.
  rewrite length_app, length_cons in Hm.
  apply StronglySorted_app in Hsorted as (Hcross & HsL & HsR).
  apply StronglySorted_cons in HsR as [HcR HsR].
  destruct (IH esL pre (c :: esR ++ post)) as (msL & HmsL & HtL);
    [lia|done|done| |].
  { rewrite Hes. by rewrite <- (assoc_L (++)). }
  destruct (IH esR (pre ++ esL ++ [c]) post) as (msR & HmsR & HtR);
    [lia|done|done| |].
  { rewrite Hes. rewrite <- !(assoc_L (++)). done. }
  set (i := length pre + length esL).
  set (l := Z.of_nat (length pre)) in *.
  set (r := (Z.of_nat (length pre + length (esL ++ c :: esR)) - 1)%Z).
  assert (Hcenter : centerIdx l r = Z.of_nat i).
  { rewrite centerIdx_spec. unfold l, r, i. rewrite length_app. simpl.
    Z.div_mod_to_equations. lia. }
  assert (Hi : es !! i = Some c).
  { rewrite Hes. unfold i. rewrite lookup_app_r by lia.
    replace (length pre + length esL - length pre) with (length esL) by lia.
    rewrite <- (assoc_L (++)). simpl. by apply list_lookup_middle. }
  replace (Z.of_nat (length (pre ++ esL ++ [c]))) with (Z.of_nat i + 1)%Z
    in HtR by (rewrite !length_app; simpl; lia).
  replace (Z.of_nat (length (pre ++ esL ++ [c]) + length esR) - 1)%Z with r
    in HtR by (unfold r; rewrite !length_app; simpl; lia).
  replace (Z.of_nat (length pre + length esL) - 1)%Z
    with (Z.of_nat i - 1)%Z in HtL by done.
  set (b1 := f64_le val (max_of c)).
  set (b2 := f64_le (lower_of c) val).
  set (b3 := f64_le val (upper_of c)).
  exists ((if b2 && b3 then [c] else []) ++ (if b2 then msR else [])
          ++ (if b1 then msL else [])).
  split.
  - assert (HR : (if b2 then msR else []) ≡ₚ matching val esR).
    { destruct b2 eqn:E2; [done|]. apply f64_le_false in E2.
      rewrite matching_none; [done|].
      eapply Forall_impl; [exact HcR|]. intros e He.
      apply matchb_false_lower. by eapply Qlt_le_trans. }
    assert (HL : (if b1 then msL else []) ≡ₚ matching val esL).
    { destruct b1 eqn:E1; [done|]. apply f64_le_false in E1.
      rewrite matching_none; [done|].
      apply Forall_forall. intros e He.
      rewrite forallb_forall in Hup.
      specialize (Hup e ltac:(by apply list_elem_of_In)).
      apply f64_le_spec in Hup.
      apply matchb_false_upper. by eapply Qle_lt_trans. }
    rewrite HR, HL, !matching_app.
    change (matching val (c :: esR)) with (matching val ([c] ++ esR)).
    rewrite matching_app.
    replace (matching val [c]) with (if b2 && b3 then [c] else [])
      by (unfold matching; rewrite filter_cons, filter_nil;
          unfold matchb; fold b2 b3; by destruct (b2 && b3)).
    rewrite (comm (++) (matching val esL)). by rewrite (assoc (++)).
  - intros stock res fuel out Hout.
    replace (2 * length (esL ++ c :: esR) + 1 + fuel)
      with (S (2 * length esR + 1 + (2 * length esL + 1 + fuel)))
      by (rewrite length_app; simpl; lia).
    rewrite Including_loop_S.
    rewrite (Including_iter_node es val l r stock res i c);
      [|unfold l, r; rewrite length_app; simpl; lia|done|done].
    simpl. fold b1 b2 b3.
    apply (traverses_if _ _ _ _ _ _ b2 HtR).
    apply (traverses_if _ _ _ _ _ _ b1 HtL).
    rewrite <- Hout. f_equal. f_equal.
    rewrite !idxs_app, !(assoc_L (++)). f_equal. f_equal.
    destruct (b2 && b3); simpl; by rewrite ?app_nil_r.
Qed.

(** X5: [Including] asks of a tree only that the lower limits ascend and
    that the third float of every range's middle slot is at least the
    upper limits to its left in the range: on such a tree, whatever else
    the third floats hold, it returns exactly the positions of the slots
    whose limits contain [val], each once. *)
Theorem Including_exact_when_sorted_and_covered (t : INTree)
    (val : float64) :
  length (limits t) = 3 * length (indexes t) →
  StronglySorted le_lower (slots_of (limits t) (indexes t)) →
  coveredb (length (indexes t)) (slots_of (limits t) (indexes t)) = true →
  ∃ res,
    Including t val = Some res ∧
    res ≡ₚ (matching val (slots_of (limits t) (indexes t))).*1.
Proof.
  intros Hwf Hsorted Hcov. destruct t as [ix lim]. simpl in *.
  destruct (slots_of_repr lim ix Hwf) as [Hlim Hix].
  pose proof (length_slots_of lim ix Hwf) as Hles.
  set (es := slots_of lim ix) in *. rewrite <- Hles in Hcov.
  destruct (traverse_covered val es (length es) es [] []
              ltac:(done) Hcov Hsorted)
    as (ms & Hms & Ht); [by rewrite app_nil_r|].
  exists (idxs ms). split.
  - rewrite Hlim, Hix at 1.
    unfold Including, Including_init. simpl indexes. rewrite length_idxs.
    specialize (Ht [] [] 0 (idxs ms) eq_refl).
    replace (2 * length es + 1 + 0) with (2 * length es + 1) in Ht by lia.
    exact Ht.
  - unfold idxs. by rewrite Hms.
Qed.

Lemma Including_exact_when_sorted_and_covered_witness :
  let t := mkINTree [7; 8; 9]%Z [1; 6; 100; 2; 3; 100; 4; 9; 100]%Q in
  length (limits t) = 3 * length (indexes t) ∧
  StronglySorted le_lower (slots_of (limits t) (indexes t)) ∧
  coveredb (length (indexes t)) (slots_of (limits t) (indexes t)) = true ∧
  ∃ res,
    Including t 5%Q = Some res ∧
    res ≡ₚ (matching 5%Q (slots_of (limits t) (indexes t))).*1.
Proof.
  assert (StronglySorted le_lower
    (slots_of [1; 6; 100; 2; 3; 100; 4; 9; 100]%Q [7; 8; 9]%Z)) as Hs.
  { apply (bool_decide_unpack _). vm_compute. exact I. }
  split_and!; [reflexivity|exact Hs|reflexivity|].
  apply (Including_exact_when_sorted_and_covered
           (mkINTree [7; 8; 9]%Z [1; 6; 100; 2; 3; 100; 4; 9; 100]%Q) 5%Q);
    [reflexivity|exact Hs|reflexivity].
Defined.

(** ** The pivots and the built tree *)

Lemma distinct_floats_spec (ls : list float64) :
  distinct_floats ls = true →
  ∀ i j a b, ls !! i = Some a → ls !! j = Some b → (a == b)%Q → i = j.
Proof.
  induction ls as [|x ls IH]; intros Hd i j a b Ha Hb Hab; [done|].
  simpl in Hd. apply andb_true_iff in Hd as [Hx Hd].
  rewrite forallb_forall in Hx.
  assert (∀ k y, ls !! k = Some y → ¬ (x == y)%Q) as Hne.
  { intros k y Hk Hxy.
    specialize (Hx y ltac:(eapply list_elem_of_In, list_elem_of_lookup_2;
                           exact Hk)).
    apply negb_true_iff in Hx. apply Qeq_bool_iff in Hxy. congruence. }
  destruct i as [|i], j as [|j]; simpl in Ha, Hb; simplify_eq.
  - done.
  - by destruct (Hne j b Hb).
  - destruct (Hne i a Ha). by symmetry.
  - f_equal. by apply (IH Hd i j a b).
Qed.

(** X6: when no two intervals of the collection have equal lower limits,
    the built tree does not depend on the pivots: every sequence of random
    choices gives the same [indexes] and the same [limits]. *)
Theorem build_independent_of_pivots `{Bounds B} (rand1 rand2 : nat → nat)
    (bounds : list B) :
  distinct_floats ((λ b, (Limits b).1) <$> bounds) = true →
  NewINTree rand1 bounds = NewINTree rand2 bounds.
Proof.
  intros Hd.
  destruct (buildTree_spec rand1 bounds) as (es1 & Hb1 & [Hp1 Hs1 Ha1]).
  destruct (buildTree_spec rand2 bounds) as (es2 & Hb2 & [Hp2 Hs2 Ha2]).
  unfold NewINTree. rewrite Hb1, Hb2.
  set (R := λ b1 b2 : Z * Q * Q, (b1.1.2 <= b2.1.2)%Q).
  assert (bounds_of <$> es1 = bounds_of <$> es2) as Hb.
  { apply (StronglySorted_unique_strong R).
    - intros x1 x2 Hx1 Hx2 H12 H21. rewrite Hp1 in Hx1. rewrite Hp2 in Hx2.
      apply list_elem_of_fmap in Hx1 as (e1 & -> & He1).
      apply list_elem_of_fmap in Hx2 as (e2 & -> & He2).
      apply list_elem_of_lookup in He1 as [i Hi].
      apply list_elem_of_lookup in He2 as [j Hj].
      unfold initial_entries in Hi, Hj.
      rewrite list_lookup_imap in Hi, Hj.
      destruct (bounds !! i) as [bi|] eqn:Ei; [|done].
      destruct (bounds !! j) as [bj|] eqn:Ej; [|done].
      simpl in Hi, Hj. simplify_eq.
      assert (i = j) as ->; [|by simplify_eq].
      apply (distinct_floats_spec _ Hd i j (Limits bi).1 (Limits bj).1).
      + by rewrite list_lookup_fmap, Ei.
      + by rewrite list_lookup_fmap, Ej.
      + unfold R in H12, H21. simpl in H12, H21. by apply Qle_antisym.
    - by apply (StronglySorted_fmap bounds_of le_lower R).
    - by apply (StronglySorted_fmap bounds_of le_lower R).
    - by rewrite Hp1, Hp2. }
  f_equal. f_equal.
  - by rewrite !idxs_bounds_of, Hb.
  - unfold lims. f_equal. apply Augmented_unique; [done|done|].
    by rewrite !limits_of_bounds_of, Hb.
Qed.

Lemma build_independent_of_pivots_witness :
  distinct_floats
    ((λ b, (Limits b).1) <$> [mkTB 4 6; mkTB 1 3; mkTB 3 6; mkTB 2 3])
    = true ∧
  NewINTree (λ k, k) [mkTB 4 6; mkTB 1 3; mkTB 3 6; mkTB 2 3]
    = NewINTree (λ k, 7 * k + 2) [mkTB 4 6; mkTB 1 3; mkTB 3 6; mkTB 2 3].
Proof.
  split; [reflexivity|].
  apply (build_independent_of_pivots (λ k, k) (λ k, 7 * k + 2)
           [mkTB 4 6; mkTB 1 3; mkTB 3 6; mkTB 2 3]).
  reflexivity.
Defined.

(** X7: [NewINTreeV] and [NewINTree] build the same tree from collections
    with the same limits: the two construction paths agree. *)
Theorem NewINTreeV_agrees_with_NewINTree {B V B' : Type}
    `{!ValuedBounds B V} `{!Bounds B'} (rand : nat → nat)
    (vbounds : list B) (bounds : list B') :
  Limits <$> vbounds = Limits <$> bounds →
  NewINTreeV rand vbounds = NewINTree rand bounds.
Proof.
  intros Hlim. change (buildTree rand vbounds = buildTree rand bounds).
  unfold buildTree. rewrite !build_loop.
  assert (initial_entries vbounds = initial_entries bounds) as ->; [|done].
  unfold initial_entries.
  transitivity (imap (λ i (lu : Q * Q), (Z.of_nat i, Slot lu.1 lu.2 0%Q))
                     (Limits <$> vbounds)).
  - by rewrite imap_fmap.
  - rewrite Hlim. by rewrite imap_fmap.
Qed.

Lemma NewINTreeV_agrees_with_NewINTree_witness :
  Limits <$> [mkVTB 4 6 1; mkVTB 6 9 2] = Limits <$> [mkTB 4 6; mkTB 6 9] ∧
  NewINTreeV (λ k, k) [mkVTB 4 6 1; mkVTB 6 9 2]
    = NewINTree (λ k, k) [mkTB 4 6; mkTB 6 9].
Proof.
  split; [reflexivity|].
  apply (NewINTreeV_agrees_with_NewINTree (λ k, k)
           [mkVTB 4 6 1; mkVTB 6 9 2] [mkTB 4 6; mkTB 6 9]).
  reflexivity.
Defined.

(** ** The test suite under every sequence of pivots *)

Lemma build_then_query `{Bounds B} (rand : nat → nat) (bounds : list B) :
  ∃ t, NewINTree rand bounds = Some t ∧
       ∀ val, ∃ res, Including t val = Some res ∧
                     res ≡ₚ brute_force bounds val.
Proof.
  destruct (buildTree_spec rand bounds) as (es & Hbuild & Hbuilt).
  exists (mkINTree (idxs es) (lims es)). split; [done|]. intros val.
  destruct (Including_spec es val (built_augmented _ _ Hbuilt)
              (built_sorted _ _ Hbuilt)) as (ms & Hms & Hq).
  exists (idxs ms). split; [done|].
  rewrite brute_force_initial,
    <- (idxs_matching_perm val es) by apply Hbuilt.
  unfold idxs. by rewrite Hms.
Qed.

Lemma mapM_asserts {A} (f : A → option bool) (xs : list A) :
  Forall (λ x, f x = Some true) xs →
  (oks ← mapM f xs; Some (forallb id oks)) = Some true.
Proof.
  induction 1 as [|x xs Hx _ IH]; [done|].
  simpl. rewrite Hx. simpl.
  destruct (mapM f xs) as [oks|]; [|done]. simpl in *. done.
Qed.

Lemma count_case_passes (rand : nat → nat) (inputBounds : list testBounds)
    (expected : list (float64 * nat)) :
  Forall (λ '(val, n), length (brute_force inputBounds val) = n) expected →
  count_case rand inputBounds expected = Some true.
Proof.
  intros Hexp. unfold count_case.
  destruct (build_then_query rand inputBounds) as (t & -> & Hq). simpl.
  apply mapM_asserts. eapply Forall_impl; [exact Hexp|].
  intros [val n] Hn. destruct (Hq val) as (res & -> & Hperm). simpl.
  apply Permutation_length in Hperm.
  by rewrite bool_decide_true by congruence.
Qed.

(** X8: every case of [Test_Tree] passes, neither failing an assertion nor
    panicking, whatever pivots [sort] draws. *)
Theorem Test_Tree_passes (rand : nat → nat) :
  Test_Tree_Case_Example rand = Some true ∧
  Test_Tree_nil_bounds rand = Some true ∧
  Test_Tree_single_interval rand = Some true ∧
  Test_Tree_repeated_interval rand = Some true ∧
  Test_Tree_overlap_at_boundary rand = Some true ∧
  Test_Tree_fine_grained rand = Some true.
Proof.
  split_and!.
  - unfold Test_Tree_Case_Example.
    destruct (build_then_query rand case_example) as (t & -> & Hq). simpl.
    destruct (Hq 4.3%Q) as (res & -> & Hperm). simpl.
    rewrite bool_decide_true by (by rewrite (Permutation_length Hperm)).
    apply mapM_asserts. rewrite Hperm. vm_compute. repeat constructor.
  - unfold Test_Tree_nil_bounds.
    destruct (build_then_query rand (@nil testBounds)) as (t & -> & Hq).
    simpl. destruct (Hq 4.3%Q) as (res & -> & Hperm). simpl.
    apply Permutation_nil_r in Hperm. by subst.
  - apply count_case_passes. by repeat constructor.
  - apply count_case_passes. by repeat constructor.
  - apply count_case_passes. by repeat constructor.
  - apply count_case_passes. by repeat constructor.
Qed.

Lemma valued_case_passes (rand : nat → nat)
    (inputBounds : list valuedTestBounds) (expected : list (float64 * nat)) :
  Forall (λ '(val, n), length (brute_force inputBounds val) = n) expected →
  (∀ i b, inputBounds !! i = Some b → Value b = (Z.of_nat i + 1)%Z) →
  valued_case rand inputBounds expected = Some true.
Proof.
  intros Hexp Hval. unfold valued_case.
  destruct (build_then_query rand inputBounds) as (t & -> & Hq). simpl.
  apply mapM_asserts. eapply Forall_impl; [exact Hexp|].
  intros [val n] Hn. destruct (Hq val) as (res & -> & Hperm). simpl.
  pose proof (Permutation_length Hperm) as Hlen.
  rewrite bool_decide_true by congruence. simpl.
  apply mapM_asserts. apply Forall_forall. intros k Hk.
  apply elem_of_seq in Hk.
  destruct (lookup_lt_is_Some_2 res k) as [m Hm]; [lia|].
  unfold assert_value_at. rewrite Hm. simpl.
  assert (m ∈ brute_force inputBounds val) as Hin.
  { rewrite <- Hperm. by eapply list_elem_of_lookup_2. }
  apply elem_of_brute_force in Hin as (i & b & -> & Hb & _).
  rewrite loadZ_nat, Hb. simpl. unfold assert_value.
  by rewrite bool_decide_true by (by rewrite (Hval i b Hb)).
Qed.

(** X9: every case of [Test_Tree_Valued] passes, neither failing an
    assertion nor panicking, whatever pivots [sort] draws. *)
Theorem Test_Tree_Valued_passes (rand : nat → nat) :
  Test_Tree_Valued_Case_Example rand = Some true ∧
  Test_Tree_Valued_nil_bounds rand = Some true ∧
  Test_Tree_Valued_single_interval rand = Some true ∧
  Test_Tree_Valued_repeated_interval rand = Some true ∧
  Test_Tree_Valued_overlap_at_boundary rand = Some true ∧
  Test_Tree_Valued_fine_grained rand = Some true.
Proof.
  split_and!.
  - unfold Test_Tree_Valued_Case_Example.
    destruct (build_then_query rand valued_example) as (t & -> & Hq). simpl.
    destruct (Hq 4.3%Q) as (res & -> & Hperm). simpl.
    rewrite bool_decide_true by (by rewrite (Permutation_length Hperm)).
    apply mapM_asserts. rewrite Hperm. vm_compute. repeat constructor.
  - apply valued_case_passes; [by repeat constructor|]. by intros [|i] b Hb.
  - apply valued_case_passes; [by repeat constructor|].
    intros [|i] b Hb; simplify_eq/=; reflexivity.
  - apply valued_case_passes; [by repeat constructor|].
    intros [|[|i]] b Hb; simplify_eq/=; reflexivity.
  - apply valued_case_passes; [by repeat constructor|].
    intros [|[|[|i]]] b Hb; simplify_eq/=; reflexivity.
  - apply valued_case_passes; [by repeat constructor|].
    intros [|[|i]] b Hb; simplify_eq/=; reflexivity.
Qed.

(** ** The random numbers sort draws *)

Lemma swapIndexes_length ix a b ix' :
  swapIndexes ix a b = Some ix' → length ix' = length ix.
Proof.
  unfold swapIndexes, load, store. intros Hs.
  destruct (ix !! b) as [vb|]; [|done]. simpl in Hs.
  destruct (ix !! a) as [va|]; [|done]. simpl in Hs.
  case_decide; [|done]. simpl in Hs. case_decide; [|done].
  simplify_eq. by rewrite !length_insert.
Qed.

Lemma sort_body_length r lim ix l i lim' ix' l' :
  sort_body r (lim, ix, l) i = Some (lim', ix', l') →
  length ix' = length ix.
Proof.
  unfold sort_body. intros Hs.
  destruct (load lim (3 * i)) as [x|]; [|done]. simpl in Hs.
  destruct (load lim (3 * r)) as [p|]; [|done]. simpl in Hs.
  destruct (f64_lt x p); [|by simplify_eq].
  destruct (swapIndexes ix l i) as [ix1|] eqn:E; [|done]. simpl in Hs.
  destruct (swapLimits lim l i); [|done]. simpl in Hs. simplify_eq.
  by eapply swapIndexes_length.
Qed.

Lemma sort_loop_length r n : ∀ lim ix l lim' ix' l',
  for_range n (sort_body r) (lim, ix, l) = Some (lim', ix', l') →
  length ix' = length ix.
Proof.
  induction n as [|n IH]; intros lim ix l lim' ix' l' Hrun.
  { unfold for_range in Hrun. simpl in Hrun. by simplify_eq. }
  rewrite for_range_S in Hrun.
  destruct (for_range n (sort_body r) (lim, ix, l))
    as [[[lim1 ix1] l1]|] eqn:E; [|done].
  simpl in Hrun. apply sort_body_length in Hrun. apply IH in E. congruence.
Qed.

Lemma sort_rec_calls (rand : nat → nat) fuel : ∀ k lim ix k' lim' ix',
  sort_rec fuel rand k lim ix = Some (k', lim', ix') →
  length ix' = length ix ∧
  (length ix < 2 → k' = k) ∧
  (2 ≤ length ix → k + 1 ≤ k' ≤ k + (length ix - 1)).
Proof.
  induction fuel as [|fuel IH]; intros k lim ix k' lim' ix' Hs.
  { simpl in Hs. case_decide; [|done]. simplify_eq.
    split_and!; [done|done|lia]. }
  simpl in Hs. case_decide as Hsmall.
  { simplify_eq. split_and!; [done|done|lia]. }
  destruct (swapIndexes ix _ _) as [ix1|] eqn:E1; [|done]. simpl in Hs.
  destruct (swapLimits lim _ _) as [lim1|]; [|done]. simpl in Hs.
  apply swapIndexes_length in E1.
  destruct (for_range _ _ _) as [[[lim2 ix2] l]|] eqn:E2; [|done].
  simpl in Hs. apply sort_loop_length in E2.
  destruct (swapIndexes ix2 _ _) as [ix3|] eqn:E3; [|done]. simpl in Hs.
  destruct (swapLimits lim2 _ _) as [lim3|]; [|done]. simpl in Hs.
  apply swapIndexes_length in E3.
  unfold slice_to in Hs at 1 2.
  destruct (decide (3 * l ≤ length lim3)); [|done]. simpl in Hs.
  destruct (decide (l ≤ length ix3)) as [Hl|]; [|done]. simpl in Hs.
  destruct (sort_rec fuel rand (S k) _ _)
    as [[[k1 limL] ixL]|] eqn:EL; [|done].
  simpl in Hs. apply IH in EL as (HlenL & HkL0 & HkL).
  rewrite length_take in HlenL.
  unfold slice_from in Hs at 1 2.
  destruct (decide (3 * l + 3 ≤ length (limL ++ drop (3 * l) lim3)));
    [|done].
  simpl in Hs.
  destruct (decide (l + 1 ≤ length (ixL ++ drop l ix3))) as [Hr|]; [|done].
  simpl in Hs. rewrite length_app, length_drop in Hr.
  destruct (sort_rec fuel rand k1 _ _)
    as [[[k2 limR] ixR]|] eqn:ER; [|done].
  simpl in Hs. apply IH in ER as (HlenR & HkR0 & HkR).
  rewrite length_drop, length_app, length_drop in HlenR.
  simplify_eq.
  rewrite length_app, length_take, length_app, length_drop.
  split_and!; [lia|lia|]. intros _.
  destruct (decide (length (take l ix3) < 2)),
           (decide (length (drop (l + 1) (ixL ++ drop l ix3)) < 2));
    rewrite ?length_take, ?length_drop, ?length_app, ?length_drop in *;
    lia.
Qed.

Lemma sort_rec_calls_mono (rand : nat → nat) fuel k lim ix k' lim' ix' :
  sort_rec fuel rand k lim ix = Some (k', lim', ix') → k ≤ k'.
Proof.
  intros Hs. apply sort_rec_calls in Hs as (_ & H1 & H2).
  destruct (decide (length ix < 2)); [rewrite H1 by done|]; lia.
Qed.

Lemma sort_rec_reads (rand rand2 : nat → nat) fuel :
  ∀ k lim ix k' lim' ix',
  sort_rec fuel rand k lim ix = Some (k', lim', ix') →
  (∀ j, k ≤ j < k' → rand2 j = rand j) →
  sort_rec fuel rand2 k lim ix = Some (k', lim', ix').
Proof.
  induction fuel as [|fuel IH]; intros k lim ix k' lim' ix' Hs Hagree.
  { simpl in *. by case_decide. }
  pose proof (sort_rec_calls _ _ _ _ _ _ _ _ Hs) as (_ & _ & Hk).
  simpl in *. case_decide as Hsmall; [done|].
  rewrite (Hagree k) by lia.
  destruct (swapIndexes ix _ _) as [ix1|]; [|done]. simpl in *.
  destruct (swapLimits lim _ _) as [lim1|]; [|done]. simpl in *.
  destruct (for_range _ _ _) as [[[lim2 ix2] l]|]; [|done]. simpl in *.
  destruct (swapIndexes ix2 _ _) as [ix3|]; [|done]. simpl in *.
  destruct (swapLimits lim2 _ _) as [lim3|]; [|done]. simpl in *.
  destruct (slice_to lim3 _) as [limL0|]; [|done]. simpl in *.
  destruct (slice_to ix3 _) as [ixL0|]; [|done]. simpl in *.
  destruct (sort_rec fuel rand (S k) limL0 ixL0)
    as [[[k1 limL] ixL]|] eqn:EL; [|done].
  simpl in *.
  destruct (slice_from (limL ++ _) _) as [limR0|] eqn:E1; [|done].
  simpl in *.
  destruct (slice_from (ixL ++ _) _) as [ixR0|] eqn:E2; [|done].
  simpl in *.
  destruct (sort_rec fuel rand k1 limR0 ixR0)
    as [[[k2 limR] ixR]|] eqn:ER; [|done].
  simpl in *. simplify_eq.
  pose proof (sort_rec_calls_mono _ _ _ _ _ _ _ _ EL).
  pose proof (sort_rec_calls_mono _ _ _ _ _ _ _ _ ER).
  rewrite (IH _ _ _ _ _ _ EL) by (intros; apply Hagree; lia). simpl.
  rewrite E1. simpl. rewrite E2. simpl.
  rewrite (IH _ _ _ _ _ _ ER) by (intros; apply Hagree; lia). done.
Qed.

(** X10: [sort] calls [rand.Int()] once in every call on two or more
    slots and nowhere else: on fewer than two slots it draws nothing, on
    [n >= 2] slots it draws at least one and at most [n - 1] numbers, and
    its result depends on no other number of the sequence than the ones
    it draws. *)
Theorem sort_draws_at_most_n_minus_1 (rand : nat → nat) (k : nat)
    (lim : list float64) (ix : list Z) :
  length lim = 3 * length ix →
  ∃ k' lim' ix',
    sort rand k lim ix = Some (k', lim', ix') ∧
    (length ix < 2 → k' = k) ∧
    (2 ≤ length ix → k + 1 ≤ k' ≤ k + (length ix - 1)) ∧
    ∀ rand2, (∀ j, k ≤ j < k' → rand2 j = rand j) →
      sort rand2 k lim ix = Some (k', lim', ix').
Proof.
  intros Hlen. destruct (slots_of_repr lim ix Hlen) as [Hlim Hix].
  destruct (sort_spec rand (slots_of lim ix) k) as (k' & es' & Hs & _).
  rewrite <- Hlim, <- Hix in Hs.
  exists k', (lims es'), (idxs es'). unfold sort in *.
  destruct (sort_rec_calls _ _ _ _ _ _ _ _ Hs) as (_ & H1 & H2).
  split_and!; [done|done|done|].
  intros rand2 Hagree. by apply (sort_rec_reads rand).
Qed.

Lemma sort_draws_at_most_n_minus_1_witness :
  length [5; 1; 9; 2; 8; 7; 2; 3; 4]%Q = 3 * length [10; 20; 30]%Z ∧
  ∃ k' lim' ix',
    sort (λ k, k + 1) 4 [5; 1; 9; 2; 8; 7; 2; 3; 4]%Q [10; 20; 30]%Z
      = Some (k', lim', ix') ∧
    (2 ≤ length [10; 20; 30]%Z →
     4 + 1 ≤ k' ≤ 4 + (length [10; 20; 30]%Z - 1)).
Proof.
  split; [reflexivity|].
  destruct (sort_draws_at_most_n_minus_1 (λ k, k + 1) 4
              [5; 1; 9; 2; 8; 7; 2; 3; 4]%Q [10; 20; 30]%Z eq_refl)
    as (k' & lim' & ix' & Hs & _ & Hk & _).
  by exists k', lim', ix'.
Defined.

(** ** The depth of the stack *)

Lemma pairs_ind (P : list Z → Prop) :
  P [] → (∀ x, P [x]) → (∀ r l rest, P rest → P (r :: l :: rest)) →
  ∀ s, P s.
Proof.
  intros Hnil Hone Hstep s.
  assert (P s ∧ ∀ x, P (x :: s)) as [H _]; [|done].
  induction s as [|y s [IH1 IH2]]; [by split|].
  split; [apply IH2|]. intros x. by apply Hstep.
Qed.

Lemma dominated_mono stock : ∀ above above',
  (above' ≤ above)%Z → dominated above stock → dominated above' stock.
Proof.
  induction stock as [| |r l rest IH] using pairs_ind;
    intros above above' Hle Hd; try done.
  destruct Hd as [H1 H2]. split; [lia|].
  apply (IH (above + (r - l + 2))%Z); [lia|done].
Qed.

Lemma Including_iter_stock t val r l stock res st' :
  Including_iter t val (mkQ (r :: l :: stock) res) = Some st' →
  (l = (r + 1)%Z ∧ idxStock st' = stock) ∨
  (l ≠ (r + 1)%Z ∧ ∃ left right : bool,
     idxStock st'
     = (if right then [r; (centerIdx l r + 1)%Z] else [])
       ++ (if left then [(centerIdx l r - 1)%Z; l] else []) ++ stock).
Proof.
  intros Hiter. unfold Including_iter in Hiter. simpl in Hiter.
  destruct (decide (l = (r + 1)%Z)) as [Heq|Hne].
  { left. by simplify_eq. }
  right. split; [done|].
  destruct (loadZ (limits t) (3 * centerIdx l r + 2)) as [mx|]; [|done].
  destruct (loadZ (limits t) (3 * centerIdx l r)) as [lo|]; [|done].
  simpl in Hiter. exists (f64_le val mx), (f64_le lo val).
  destruct (f64_le lo val); [|by simplify_eq; destruct (f64_le val mx)].
  destruct (loadZ (limits t) (3 * centerIdx l r + 1)) as [up|]; [|done].
  simpl in Hiter. destruct (f64_le val up).
  - destruct (loadZ (indexes t) (centerIdx l r)); [|done].
    simpl in Hiter. simplify_eq. by destruct (f64_le val mx).
  - simplify_eq. by destruct (f64_le val mx).
Qed.

Lemma reachable_dominated t val st :
  well_formed t → reachable t val st → dominated 0 (idxStock st).
Proof.
  intros Hwf Hst. induction Hst as [|st st' Hst IH Hne Hiter].
  { simpl. split; [lia|done]. }
  pose proof (reachable_stock_ok t val st Hwf Hst) as Hok.
  destruct st as [[|r [|l stock]] res]; simpl in *; try done.
  destruct IH as [_ Hd]. destruct Hok as [Hrange _].
  apply Including_iter_stock in Hiter
    as [[_ ->]|(Hnr & left & right & ->)].
  { eapply dominated_mono; [|exact Hd]. lia. }
  pose proof (centerIdx_bounds l r ltac:(lia)) as Hc.
  assert (l + r ≤ 2 * centerIdx l r)%Z as Hhalf.
  { rewrite centerIdx_spec. Z.div_mod_to_equations. lia. }
  destruct left, right; simpl.
  - split_and!; [lia|lia|]. eapply dominated_mono; [|exact Hd]. lia.
  - split; [lia|]. eapply dominated_mono; [|exact Hd]. lia.
  - split; [lia|]. eapply dominated_mono; [|exact Hd]. lia.
  - eapply dominated_mono; [|exact Hd]. lia.
Qed.

Lemma dominated_pow (n : Z) stock : ∀ above,
  (1 ≤ above)%Z → stock ≠ [] → dominated above stock → stock_ok n stock →
  (above * 2 ^ Z.of_nat (length stock / 2) ≤ 2 * (n + 1))%Z.
Proof.
  induction stock as [| |r l rest IH] using pairs_ind;
    intros above Habove Hne Hd Hok; try done.
  destruct Hd as [Hw Hd]. destruct Hok as [Hrange Hok].
  replace (length (r :: l :: rest) / 2) with (S (length rest / 2)).
  2:{ simpl length. replace (S (S (length rest))) with (1 * 2 + length rest)
        by lia. rewrite Nat.div_add_l by lia. lia. }
  rewrite Nat2Z.inj_succ, Z.pow_succ_r by lia.
  destruct (decide (rest = [])) as [->|Hrest].
  { simpl. lia. }
  specialize (IH (above + (r - l + 2))%Z ltac:(lia) Hrest Hd Hok).
  assert (0 < 2 ^ Z.of_nat (length rest / 2))%Z by (apply Z.pow_pos_nonneg; lia).
  nia.
Qed.

(** X11: the explicit stack of [Including] stays logarithmic: on any tree
    with three floats per index, at the head of every iteration the number
    [k] of ranges on the stack satisfies [2^k <= 4 * (n + 1)]. *)
Theorem Including_stack_is_logarithmic (t : INTree) (val : float64)
    (st : qstate) :
  length (limits t) = 3 * length (indexes t) →
  reachable t val st →
  2 ^ (length (idxStock st) / 2) ≤ 4 * (length (indexes t) + 1).
Proof.
  intros Hwf Hst.
  pose proof (reachable_stock_ok t val st Hwf Hst) as Hok.
  pose proof (reachable_dominated t val st Hwf Hst) as Hd.
  destruct (idxStock st) as [|r [|l rest]] eqn:Hstock; simpl in Hok;
    [simpl; lia|done|].
  destruct Hok as [Hrange Hok]. destruct Hd as [_ Hd].
  replace (length (r :: l :: rest) / 2) with (S (length rest / 2)).
  2:{ simpl length. replace (S (S (length rest))) with (1 * 2 + length rest)
        by lia. rewrite Nat.div_add_l by lia. lia. }
  destruct (decide (rest = [])) as [->|Hrest].
  { simpl. lia. }
  pose proof (dominated_pow _ rest (0 + (r - l + 2))%Z ltac:(lia) Hrest
                Hd Hok) as Hpow.
  assert (0 < 2 ^ Z.of_nat (length rest / 2))%Z
    by (apply Z.pow_pos_nonneg; lia).
  set (k := length rest / 2) in *.
  assert (Hp : Z.of_nat (2 ^ S k) = (2 * 2 ^ Z.of_nat k)%Z).
  { rewrite Nat2Z.inj_pow, (Nat2Z.inj_succ k).
    by rewrite Z.pow_succ_r by lia. }
  apply Nat2Z.inj_le. rewrite Hp. nia.
Qed.

Lemma Including_stack_is_logarithmic_witness :
  let t := mkINTree [7; 8; 9]%Z [1; 6; 9; 2; 3; 9; 4; 9; 9]%Q in
  length (limits t) = 3 * length (indexes t) ∧
  reachable t 5%Q (Including_init t) ∧
  2 ^ (length (idxStock (Including_init t)) / 2)
    ≤ 4 * (length (indexes t) + 1).
Proof.
  split; [reflexivity|]. split; [apply reachable_init|].
  apply (Including_stack_is_logarithmic
           (mkINTree [7; 8; 9]%Z [1; 6; 9; 2; 3; 9; 4; 9; 9]%Q) 5%Q);
    [reflexivity|apply reachable_init].
Defined.

(** ** The centering rule of augment and of Including *)

(** [augment] gives the same result on any budget that covers the slots. *)
Lemma augment_of_Augmented (es es' : list entry) :
  Augmented es' → limits_of <$> es' = limits_of <$> es →
  augment (lims es) (idxs es) = Some (lims es').
Proof.
  intros Ha Hl. destruct (augment_spec es) as (es2 & -> & Hb2 & Ha2).
  f_equal. unfold lims. f_equal. symmetry.
  apply Augmented_unique; [done|done|].
  by rewrite Hl, !limits_of_bounds_of, Hb2.
Qed.

Lemma lookup_slice {A} (X : list A) a n i :
  take n (drop a X) !! i = if decide (i < n) then X !! (a + i) else None.
Proof.
  case_decide.
  - by rewrite lookup_take_lt, lookup_drop.
  - by rewrite lookup_take_ge by lia.
Qed.

(** C4: build-time augmentation and query-time traversal use the same
    centering rule.  For every slot range [[l, r]] with [l <= r] of a pair
    of slices, [augment] run on the sub-slice of the range
    ([limits[3*l : 3*(r+1)]], [indexes[l : r+1]]) stores the maximum it
    scanned over the range in the third float of the slot at offset
    [len >> 1], which is the slot [center = ceil((l + r) / 2)] of
    [Including]; the sub-slices it recurses on are those of the ranges
    [[l, center - 1]] and [[center + 1, r]]; and an iteration of
    [Including] on the range [(l, r)] of the array so augmented reads the
    three floats and the index of that slot and pushes [(l, center - 1)]
    and [(center + 1, r)]. *)
Theorem centering_rule_agrees (lim : list float64) (ix : list Z)
    (l r : nat) (val : float64) (stock res : list Z) :
  length lim = 3 * length ix → l ≤ r < length ix →
  let len := r - l + 1 in
  let sub_lim := take (3 * len) (drop (3 * l) lim) in
  let sub_ix := take len (drop l ix) in
  let root := augment_root len in
  let c := l + root in
  centerIdx (Z.of_nat l) (Z.of_nat r) = Z.of_nat c ∧
  l ≤ c ≤ r ∧
  take (3 * root) sub_lim = take (3 * (c - l)) (drop (3 * l) lim) ∧
  take root sub_ix = take (c - l) (drop l ix) ∧
  drop (3 * root + 3) sub_lim
    = take (3 * (r - c)) (drop (3 * (c + 1)) lim) ∧
  drop (root + 1) sub_ix = take (r - c) (drop (c + 1) ix) ∧
  ∃ sub' lo up p,
    let mx := scan_max (s_upper <$> unflat sub_lim) in
    augment sub_lim sub_ix = Some sub' ∧
    length sub' = 3 * len ∧
    sub' !! (3 * root + 2) = Some mx ∧
    sub' !! (3 * root) = Some lo ∧ lim !! (3 * c) = Some lo ∧
    sub' !! (3 * root + 1) = Some up ∧ lim !! (3 * c + 1) = Some up ∧
    ix !! c = Some p ∧
    augment (take (3 * root) sub_lim) (take root sub_ix)
      = Some (take (3 * root) sub') ∧
    augment (drop (3 * root + 3) sub_lim) (drop (root + 1) sub_ix)
      = Some (drop (3 * root + 3) sub') ∧
    Including_iter
      (mkINTree ix (take (3 * l) lim ++ sub' ++ drop (3 * (r + 1)) lim))
      val (mkQ (Z.of_nat r :: Z.of_nat l :: stock) res)
    = Some (mkQ
        (let stock1 :=
           if f64_le val mx
           then (Z.of_nat c - 1)%Z :: Z.of_nat l :: stock else stock in
         if f64_le lo val
         then Z.of_nat r :: (Z.of_nat c + 1)%Z :: stock1 else stock1)
        (if f64_le lo val && f64_le val up then res ++ [p] else res)).
Proof.
  intros Hwf Hlr len sub_lim sub_ix root c.
  assert (Hroot : root = len / 2) by apply augment_root_half.
  assert (Hroot_lt : root < len).
  { rewrite Hroot. apply Nat.div_lt; unfold len; lia. }
  assert (Hc : centerIdx (Z.of_nat l) (Z.of_nat r) = Z.of_nat c).
  { rewrite centerIdx_spec. unfold c. rewrite Hroot.
    pose proof (Nat.div_mod_eq len 2).
    pose proof (Nat.mod_upper_bound len 2 ltac:(lia)).
    unfold len in *. Z.div_mod_to_equations. lia. }
  split; [done|]. split; [unfold c, len in *; lia|].
  assert (Hcl : c - l = root) by (unfold c; lia).
  split_and!.
  - unfold sub_lim. rewrite Hcl, take_take. f_equal. lia.
  - unfold sub_ix. rewrite Hcl, take_take. f_equal. lia.
  - unfold sub_lim. apply list_eq. intros i.
    rewrite lookup_drop, !lookup_slice.
    repeat case_decide; try done; try (unfold c, len in *; lia).
    f_equal. unfold c. lia.
  - unfold sub_ix. apply list_eq. intros i.
    rewrite lookup_drop, !lookup_slice.
    repeat case_decide; try done; try (unfold c, len in *; lia).
    f_equal. unfold c. lia.
  - destruct (slots_of_repr lim ix Hwf) as [Hlim Hix].
    pose proof (length_slots_of lim ix Hwf) as Hles.
    set (es := slots_of lim ix) in *.
    set (pre := take l es). set (sub := take len (drop l es)).
    set (post := drop (r + 1) es).
    assert (Hes : es = pre ++ sub ++ post).
    { unfold pre, sub, post.
      rewrite <- (take_drop l es) at 1. f_equal.
      rewrite <- (take_drop len (drop l es)) at 1. f_equal.
      rewrite drop_drop. f_equal. unfold len. lia. }
    assert (Hsub_lim : sub_lim = lims sub).
    { unfold sub_lim, sub. by rewrite Hlim, lims_drop, lims_take. }
    assert (Hsub_ix : sub_ix = idxs sub).
    { unfold sub_ix, sub. by rewrite Hix, idxs_drop, idxs_take. }
    assert (Hlen_sub : length sub = len).
    { unfold sub. rewrite length_take, length_drop. unfold len. lia. }
    assert (Hlen_pre : length pre = l).
    { unfold pre. rewrite length_take. lia. }
    destruct (augment_spec sub) as (es' & Haug & Hb & Ha).
    assert (Hlen' : length es' = len).
    { by rewrite <- (length_fmap bounds_of), Hb, length_fmap. }
    destruct Ha as [|esL e esR HlenL Hmax HaL HaR];
      [simpl in Hlen'; lia|].
    rewrite Hlen' in HlenL. fold root in HlenL.
    assert (He : (esL ++ e :: esR) !! root = Some e)
      by (by apply list_lookup_middle).
    assert (∃ e0, sub !! root = Some e0 ∧ bounds_of e0 = bounds_of e)
      as (e0 & He0 & Hbe).
    { destruct (lookup_lt_is_Some_2 sub root) as [e0 He0]; [lia|].
      exists e0. split; [done|].
      assert (bounds_of <$> (esL ++ e :: esR) !! root
              = bounds_of <$> sub !! root) as Hroot_b
        by (by rewrite <- !list_lookup_fmap, Hb).
      rewrite He, He0 in Hroot_b. simpl in Hroot_b. congruence. }
    assert (Hes_c : es !! c = Some e0).
    { rewrite Hes. unfold c. rewrite lookup_app_r by lia.
      rewrite Hlen_pre. replace (l + root - l) with root by lia.
      by rewrite lookup_app_l by lia. }
    assert (Hlo : lower_of e0 = lower_of e ∧ upper_of e0 = upper_of e
                  ∧ e0.1 = e.1).
    { unfold bounds_of in Hbe. by simplify_eq. }
    destruct Hlo as (Hlo & Hup & Hidx).
    assert (HbL : bounds_of <$> esL = bounds_of <$> take root sub).
    { rewrite fmap_take, <- Hb, <- fmap_take.
      by rewrite take_app_length' by done. }
    assert (HbR : bounds_of <$> esR = bounds_of <$> drop (root + 1) sub).
    { rewrite fmap_drop, <- Hb, <- fmap_drop.
      rewrite drop_app_ge by lia. rewrite HlenL.
      by replace (root + 1 - root) with 1 by lia. }
    assert (Hmx : max_of e = scan_max (s_upper <$> unflat sub_lim)).
    { rewrite Hmax, Hsub_lim. unfold lims. rewrite unflat_flat.
      rewrite upper_of_bounds_of, Hb, <- upper_of_bounds_of.
      by rewrite <- list_fmap_compose. }
    exists (lims (esL ++ e :: esR)), (lower_of e), (upper_of e), e.1.
    cbv zeta. split_and!.
    + by rewrite Hsub_lim, Hsub_ix.
    + by rewrite length_lims, Hlen'.
    + rewrite lims_lookup2, He. simpl. by rewrite <- Hmx.
    + by rewrite lims_lookup0, He.
    + rewrite Hlim, lims_lookup0, Hes_c. simpl. by rewrite <- Hlo.
    + by rewrite lims_lookup1, He.
    + rewrite Hlim, lims_lookup1, Hes_c. simpl. by rewrite <- Hup.
    + rewrite Hix. unfold idxs. rewrite list_lookup_fmap, Hes_c. simpl.
      by rewrite Hidx.
    + rewrite Hsub_lim, Hsub_ix, !lims_take, idxs_take.
      rewrite take_app_length' by done.
      apply augment_of_Augmented; [done|].
      by rewrite !limits_of_bounds_of, HbL.
    + replace (3 * root + 3) with (3 * (root + 1)) by lia.
      rewrite Hsub_lim, Hsub_ix, !lims_drop, idxs_drop.
      rewrite drop_app_ge by lia. rewrite HlenL.
      replace (root + 1 - root) with 1 by lia. simpl drop.
      rewrite drop_0. apply augment_of_Augmented; [done|].
      by rewrite !limits_of_bounds_of, HbR.
    + assert (idxs (pre ++ (esL ++ e :: esR) ++ post) = ix) as Hix'.
      { transitivity (idxs es); [|done].
        transitivity (idxs (pre ++ sub ++ post)); [|by rewrite <- Hes].
        assert (idxs (esL ++ e :: esR) = idxs sub) as Hi'
          by (by rewrite !idxs_bounds_of, Hb).
        rewrite (idxs_app pre), (idxs_app (esL ++ e :: esR)), Hi'.
        by rewrite <- !idxs_app. }
      assert (lims (pre ++ (esL ++ e :: esR) ++ post)
              = take (3 * l) lim ++ lims (esL ++ e :: esR)
                ++ drop (3 * (r + 1)) lim) as Hlim'.
      { rewrite !lims_app. unfold pre, post.
        rewrite <- lims_take, <- lims_drop. by rewrite <- Hlim. }
      rewrite <- Hix' at 1. rewrite <- Hlim'.
      rewrite (Including_iter_node _ val (Z.of_nat l) (Z.of_nat r)
                 stock res c e); [|lia|done|].
      * simpl. by rewrite Hmx.
      * unfold c. rewrite lookup_app_r by lia.
        rewrite Hlen_pre. replace (l + root - l) with root by lia.
        rewrite <- (assoc_L (++)). simpl. by apply list_lookup_middle.
Qed.

Lemma centering_rule_agrees_witness :
  let lim := [1; 4; 0; 2; 9; 0; 3; 5; 0; 6; 7; 0]%Q in
  let ix := [10; 11; 12; 13]%Z in
  length lim = 3 * length ix ∧ 1 ≤ 3 < length ix ∧
  centerIdx (Z.of_nat 1) (Z.of_nat 3)
    = Z.of_nat (1 + augment_root (3 - 1 + 1)) ∧
  ∃ sub',
    augment (take (3 * (3 - 1 + 1)) (drop (3 * 1) lim))
            (take (3 - 1 + 1) (drop 1 ix)) = Some sub' ∧
    length sub' = 3 * (3 - 1 + 1).
Proof.
  split; [reflexivity|]. split; [simpl; lia|].
  destruct (centering_rule_agrees
              [1; 4; 0; 2; 9; 0; 3; 5; 0; 6; 7; 0]%Q [10; 11; 12; 13]%Z
              1 3 5%Q [] [] eq_refl ltac:(simpl; lia))
    as (Hc & _ & _ & _ & _ & _ & sub' & lo & up & p & Ha & Hlen & _).
  split; [exact Hc|]. by exists sub'.
Defined.
